(** * Fiber [app.go]: routing table, enumeration and error escalation

    A shallow embedding of the application object of Fiber v1.12.1
    ([app.go]): structured errors, the default error handler, the
    transport error hook installed by [init], the registration surface
    ([Use], [Get], [Head], [Add], [All], [Group]), the enumeration [Routes]
    and the serving methods ([init], [Serve], [Listen], [Shutdown]).

    Conventions.
    - Go [int] values are integers of [Z]. Status codes and positions are
      only stored and compared; the one addition is the route counter,
      which counts registrations and stays far below [2^63].
    - Go strings are [string]; [==] on strings is [String.eqb].
    - A [*Route] is a pointer [ptr]: routes live in a heap and the
      per-method stacks hold pointers, so one route object shared by
      several stacks is one heap cell.
    - A non-nil value of the interface [error] is a value of [error]
      below, one constructor per dynamic type the code distinguishes. *)

From Stdlib Require Import ZArith String Ascii List Bool Lia Sorted Permutation.
From stdpp Require Import base tactics option list sorting gmap strings pretty.

Open Scope string_scope.

(** ** Errors *)

(** [type Error struct { Code int; Message string }] *)
Record Error := mkError { Code : Z; Message : string }.

(** The dynamic types of [error] values that [app.go] tells apart by a type
    assertion: [*Error], [*fasthttp.ErrSmallBuffer], [*net.OpError] (with the
    result of its [Timeout()] method), and every other type. All but
    [*Error] carry the string their [Error()] method returns. *)
Inductive error :=
| ErrorPtr (e : Error)
| ErrSmallBuffer (msg : string)
| NetOpError (timeout : bool) (msg : string)
| OtherError (msg : string).

(** [err.Error()]; for [*Error] this is [func (e *Error) Error() string]. *)
Definition error_string (err : error) : string :=
  match err with
  | ErrorPtr e => Message e
  | ErrSmallBuffer msg => msg
  | NetOpError _ msg => msg
  | OtherError msg => msg
  end.

(** HTTP status codes, header name and MIME type used by [app.go]. They are
    declared in the package's constant tables, which are not part of the
    sources at hand; the values are the registered HTTP ones. *)
Definition StatusBadRequest : Z := 400%Z.
Definition StatusNotFound : Z := 404%Z.
Definition StatusRequestTimeout : Z := 408%Z.
Definition StatusRequestEntityTooLarge : Z := 413%Z.
Definition StatusRequestHeaderFieldsTooLarge : Z := 431%Z.
Definition StatusInternalServerError : Z := 500%Z.
Definition HeaderContentType : string := "Content-Type".
Definition MIMETextPlainCharsetUTF8 : string := "text/plain; charset=utf-8".

(** [utils.StatusMessage] of the external package [utils]: the reason
    phrase registered for a status code. Only the codes that [app.go] turns
    into structured errors are tabulated; for any other code the phrase of
    the library is not reproduced, the empty string stands in for it, and
    no result below reads the table at such a code. *)
Definition StatusMessage (code : Z) : string :=
  if (code =? 400)%Z then "Bad Request"
  else if (code =? 404)%Z then "Not Found"
  else if (code =? 408)%Z then "Request Timeout"
  else if (code =? 413)%Z then "Request Entity Too Large"
  else if (code =? 431)%Z then "Request Header Fields Too Large"
  else if (code =? 500)%Z then "Internal Server Error"
  else EmptyString.

(** [func NewError(code int, message ...string) *Error] *)
Definition NewError (code : Z) (message : list string) : Error :=
  let e := mkError code (StatusMessage code) in
  match message with
  | [] => e
  | m :: _ => mkError (Code e) m
  end.

(** The package-level structured errors named by [init]. *)
Definition ErrBadRequest : Error := NewError StatusBadRequest [].
Definition ErrNotFound : Error := NewError StatusNotFound [].
Definition ErrRequestTimeout : Error := NewError StatusRequestTimeout [].
Definition ErrRequestEntityTooLarge : Error :=
  NewError StatusRequestEntityTooLarge [].
Definition ErrRequestHeaderFieldsTooLarge : Error :=
  NewError StatusRequestHeaderFieldsTooLarge [].

(** ** Request context *)

(** A [*Route]: the index of the route object in the heap of the
    application. *)
Abbreviation ptr := nat (only parsing).

(** The part of [Ctx] that the embedded code reads or writes: the request
    line, the matched route and handler cursor, the error slot, and the
    response under construction (status, headers, body). *)
Record Ctx := mkCtx {
  ctx_method : string;
  ctx_path : string;
  ctx_values : list string;
  ctx_route : option ptr;
  ctx_indexHandler : nat;
  ctx_err : option error;
  resp_status : Z;
  resp_headers : gmap string string;
  resp_body : string
}.

(** Modelled from the spec: [ctx.Set], [ctx.Status] and [ctx.SendString]
    are methods of [Ctx] declared outside [app.go]; they write one header,
    the status code and the body of the response builder. *)
Definition Set_ (ctx : Ctx) (key val : string) : Ctx :=
  mkCtx (ctx_method ctx) (ctx_path ctx) (ctx_values ctx) (ctx_route ctx)
        (ctx_indexHandler ctx) (ctx_err ctx)
        (resp_status ctx) (<[key := val]> (resp_headers ctx)) (resp_body ctx).

Definition Status (ctx : Ctx) (status : Z) : Ctx :=
  mkCtx (ctx_method ctx) (ctx_path ctx) (ctx_values ctx) (ctx_route ctx)
        (ctx_indexHandler ctx) (ctx_err ctx)
        status (resp_headers ctx) (resp_body ctx).

Definition SendString (ctx : Ctx) (body : string) : Ctx :=
  mkCtx (ctx_method ctx) (ctx_path ctx) (ctx_values ctx) (ctx_route ctx)
        (ctx_indexHandler ctx) (ctx_err ctx)
        (resp_status ctx) (resp_headers ctx) body.

Definition set_err (ctx : Ctx) (e : option error) : Ctx :=
  mkCtx (ctx_method ctx) (ctx_path ctx) (ctx_values ctx) (ctx_route ctx)
        (ctx_indexHandler ctx) e
        (resp_status ctx) (resp_headers ctx) (resp_body ctx).

(** [defaultErrorHandler = func(ctx *Ctx, err error) { ... }] *)
Definition defaultErrorHandler (ctx : Ctx) (err : error) : Ctx :=
  let code := StatusInternalServerError in
  let code := match err with ErrorPtr e => Code e | _ => code end in
  let ctx := Set_ ctx HeaderContentType MIMETextPlainCharsetUTF8 in
  SendString (Status ctx code) (error_string err).

(** ** Routes, settings and the application *)

(** [type Handler], a function of a context pointer. A handler transforms
    the context; the boolean reports whether it invoked the continuation
    [ctx.Next()]. *)
Abbreviation Handler := (Ctx → Ctx * bool)%type (only parsing).

(** The fields of [Route] that [app.go] reads ([pos], [Method], [Name]) or
    passes to the router ([Path], [Handlers]). *)
Record Route := mkRoute {
  pos : Z;
  Path : string;
  Method : string;
  Name : string;
  Handlers : list Handler
}.

(** Go's zero value [Route{}]. *)
Definition zero_Route : Route := mkRoute 0 EmptyString EmptyString EmptyString [].

(** The settings that [New] and the error paths consult. A [nil] function
    value is [None]. *)
Record Settings := mkSettings {
  ErrorHandler : option (Ctx → error → Ctx);
  BodyLimit : Z;
  Concurrency : Z;
  ReadBufferSize : Z;
  WriteBufferSize : Z;
  CompressedFileSuffix : string
}.

(** Go's zero value [Settings{}]. *)
Definition zero_Settings : Settings := mkSettings None 0 0 0 0 EmptyString.

Definition defaultBodyLimit : Z := (4 * 1024 * 1024)%Z.
Definition defaultConcurrency : Z := (256 * 1024)%Z.
Definition defaultReadBufferSize : Z := 4096%Z.
Definition defaultWriteBufferSize : Z := 4096%Z.
Definition defaultCompressedFileSuffix : string := ".fiber.gz".

(** [type App struct]: the route objects ([heap]), the route stack divided
    by HTTP method, the amount of registered routes and the settings. *)
Record App := mkApp {
  heap : list Route;
  stack : list (list ptr);
  routes : Z;
  app_Settings : Settings
}.

(** Dereference of a [*Route]. *)
Definition deref (app : App) (p : ptr) : Route :=
  default zero_Route (heap app !! p).

(** HTTP method names. *)
Definition MethodGet : string := "GET".
Definition MethodHead : string := "HEAD".
Definition MethodPost : string := "POST".
Definition MethodPut : string := "PUT".
Definition MethodDelete : string := "DELETE".
Definition MethodConnect : string := "CONNECT".
Definition MethodOptions : string := "OPTIONS".
Definition MethodTrace : string := "TRACE".
Definition MethodPatch : string := "PATCH".

(** Modelled from the spec: the table [methodINT] numbering the HTTP
    methods is declared with the router. The method at index [i] of this
    list has number [i]; the order is that of the verb methods of [App],
    with HEAD at 1 as [Routes] expects. *)
Definition methodINT : list string :=
  [MethodGet; MethodHead; MethodPost; MethodPut; MethodDelete;
   MethodConnect; MethodOptions; MethodTrace; MethodPatch].

Fixpoint index_of (s : string) (l : list string) : option nat :=
  match l with
  | [] => None
  | x :: l' => if String.eqb s x then Some 0 else S <$> index_of s l'
  end.

Definition methodInt (method : string) : option nat := index_of method methodINT.

(** [func New(settings ...*Settings) *App], without the two settings that
    read the command line or replace package-level conversion functions. *)
Definition New (settings : list Settings) : App :=
  let s := match settings with [] => zero_Settings | s :: _ => s end in
  let bodyLimit := if (BodyLimit s <=? 0)%Z then defaultBodyLimit else BodyLimit s in
  let concurrency :=
    if (Concurrency s <=? 0)%Z then defaultConcurrency else Concurrency s in
  let readBufferSize :=
    if (ReadBufferSize s <=? 0)%Z then defaultReadBufferSize else ReadBufferSize s in
  let writeBufferSize :=
    if (WriteBufferSize s <=? 0)%Z then defaultWriteBufferSize else WriteBufferSize s in
  let suffix :=
    if String.eqb (CompressedFileSuffix s) EmptyString then defaultCompressedFileSuffix
    else CompressedFileSuffix s in
  let errorHandler :=
    match ErrorHandler s with None => Some defaultErrorHandler | h => h end in
  mkApp [] (replicate (length methodINT) [])
        0 (mkSettings errorHandler bodyLimit concurrency readBufferSize
                      writeBufferSize suffix).

(** ** Enumeration: [Routes] *)

(** Go's [sort.Slice(routes, less)], as the insertion sort it performs on
    short slices. The library promises an ordered rearrangement, not
    stability; the results below use no more than that. *)
Fixpoint insert_sorted {A} (less : A → A → bool) (x : A) (l : list A) : list A :=
  match l with
  | [] => [x]
  | y :: l' => if less x y then x :: y :: l' else y :: insert_sorted less x l'
  end.

Definition sort_Slice {A} (less : A → A → bool) (l : list A) : list A :=
  foldl (λ sorted x, insert_sorted less x sorted) [] l.

Section Enumeration.
(** [h] reads a route through its pointer. *)
Variable h : ptr → Route.

(** The inner loop [for i := range routes]: it sets [duplicate] when a
    USE route of the same name was collected, and never resets it. *)
Definition duplicate (routes : list ptr) (p : ptr) : bool :=
  foldl (λ dup q,
           if String.eqb (Method (h q)) "USE"
              && String.eqb (Name (h q)) (Name (h p))
           then true else dup)
        false routes.

(** The body of the loop [for r := range app.stack[m]], for the entry
    [p = app.stack[m][r]]. *)
Definition visit (m : nat) (routes : list ptr) (p : ptr) : list ptr :=
  if (m =? 1)%nat && String.eqb (Method (h p)) MethodGet then routes
  else if String.eqb (Method (h p)) "USE" then
    if duplicate routes p then routes else routes ++ [p]
  else routes ++ [p].

Definition scan_bucket (m : nat) (routes : list ptr) (bucket : list ptr) : list ptr :=
  foldl (visit m) routes bucket.

(** The outer loop [for m := range app.stack], from bucket number [m]. *)
Fixpoint scan_stack (m : nat) (routes : list ptr) (stack : list (list ptr)) : list ptr :=
  match stack with
  | [] => routes
  | bucket :: stack' => scan_stack (S m) (scan_bucket m routes bucket) stack'
  end.

(** [routes[i].pos < routes[k].pos] *)
Definition less_pos (p q : ptr) : bool := (pos (h p) <? pos (h q))%Z.
End Enumeration.

(** [func (app *App) Routes() []*Route] *)
Definition Routes (app : App) : list ptr :=
  let routes := scan_stack (deref app) 0 [] (stack app) in
  sort_Slice (less_pos (deref app)) routes.

(** ** Registration *)

(** The outcome of a call that may end in [log.Fatalf]: the process exits
    with the logged message, and nothing after the call runs. *)
Inductive result (A : Type) :=
| Ok (a : A)
| Fatal (msg : string).
Arguments Ok {A} a.
Arguments Fatal {A} msg.

(** An argument of [Use(args ...interface{})] by dynamic type: a string, a
    [Handler], or a value of another type (with the name of that type). *)
Inductive arg :=
| ArgString (s : string)
| ArgHandler (hd : Handler)
| ArgOther (type_name : string).

(** Whether the stack of method number [m] receives a route registered
    under [method]. *)
Definition receives (method : string) (m : nat) : bool :=
  String.eqb method "USE"
  || bool_decide (methodINT !! m = Some method)
  || (String.eqb method MethodGet && (m =? 1)%nat).

(** Modelled from the spec: [app.register] is declared with the router. It
    assigns the next position, defaults an empty path to the root, creates
    the route (no name given) and appends it to the stack of its method; a
    USE route is matched against every method, so it joins every stack, and
    a GET route also answers HEAD requests, so it joins the HEAD stack
    (the two cases [Routes] undoes). It returns the new route's handle. *)
Definition register (app : App) (method pathRaw : string) (handlers : list Handler)
  : App * ptr :=
  let pathRaw := if String.eqb pathRaw EmptyString then "/" else pathRaw in
  let n := (routes app + 1)%Z in
  let route := mkRoute n pathRaw method EmptyString handlers in
  let p := length (heap app) in
  (mkApp (heap app ++ [route])
         (imap (λ m bucket, if receives method m then (bucket ++ [p])%list else bucket)
               (stack app))
         n (app_Settings app),
   p).

(** The loop of [Use] over its arguments. *)
Fixpoint Use_args (args : list arg) (prefix : string) (handlers : list Handler)
  : result (string * list Handler) :=
  match args with
  | [] => Ok (prefix, handlers)
  | ArgString s :: args' => Use_args args' s handlers
  | ArgHandler hd :: args' => Use_args args' prefix (handlers ++ [hd])
  | ArgOther t :: _ => Fatal ("Use: Invalid Handler " ++ t)
  end.

(** [func (app *App) Use(args ...interface{}) *Route] *)
Definition Use (app : App) (args : list arg) : result (App * ptr) :=
  match Use_args args EmptyString [] with
  | Ok (prefix, handlers) => Ok (register app "USE" prefix handlers)
  | Fatal msg => Fatal msg
  end.

(** [func (app *App) Add(method, path string, handlers ...Handler) *Route] *)
Definition Add (app : App) (method path : string) (handlers : list Handler)
  : App * ptr :=
  register app method path handlers.

(** [func (app *App) Get(path string, handlers ...Handler) *Route] *)
Definition Get (app : App) (path : string) (handlers : list Handler) : App * ptr :=
  Add app MethodGet path handlers.

(** [func (app *App) Head(path string, handlers ...Handler) *Route] *)
Definition Head (app : App) (path : string) (handlers : list Handler) : App * ptr :=
  Add app MethodHead path handlers.

(** [Post], [Put], [Delete], [Connect], [Options], [Trace] and [Patch] are
    [Add] with their method, like [Get] and [Head]. *)
Definition Post (app : App) (path : string) (handlers : list Handler) : App * ptr :=
  Add app MethodPost path handlers.

Definition Put (app : App) (path : string) (handlers : list Handler) : App * ptr :=
  Add app MethodPut path handlers.

Definition Delete (app : App) (path : string) (handlers : list Handler) : App * ptr :=
  Add app MethodDelete path handlers.

Definition Connect (app : App) (path : string) (handlers : list Handler) : App * ptr :=
  Add app MethodConnect path handlers.

Definition Options (app : App) (path : string) (handlers : list Handler) : App * ptr :=
  Add app MethodOptions path handlers.

Definition Trace (app : App) (path : string) (handlers : list Handler) : App * ptr :=
  Add app MethodTrace path handlers.

Definition Patch (app : App) (path : string) (handlers : list Handler) : App * ptr :=
  Add app MethodPatch path handlers.

(** [func (app *App) Group(prefix string, handlers ...Handler) *Group]; the
    group object itself only remembers [prefix] and [app]. *)
Definition Group (app : App) (prefix : string) (handlers : list Handler) : App :=
  match handlers with
  | [] => app
  | _ => fst (register app "USE" prefix handlers)
  end.

(** The assignment [route.Name = name] through a handle. *)
Definition with_Name (name : string) (r : Route) : Route :=
  mkRoute (pos r) (Path r) (Method r) name (Handlers r).

Definition set_Name (app : App) (p : ptr) (name : string) : App :=
  mkApp (alter (with_Name name) p (heap app)) (stack app) (routes app)
        (app_Settings app).

(** What a program does to an application before serving: calls of the
    registration methods ([CallAdd] stands for every verb method, each
    being [Add] with its method), and naming of routes through their
    handles. *)
Inductive call :=
| CallUse (args : list arg)
| CallGet (path : string) (handlers : list Handler)
| CallHead (path : string) (handlers : list Handler)
| CallAdd (method path : string) (handlers : list Handler)
| CallGroup (prefix : string) (handlers : list Handler)
| CallSetName (p : ptr) (name : string).

Definition step (app : App) (c : call) : result App :=
  match c with
  | CallUse args =>
      match Use app args with Ok (app', _) => Ok app' | Fatal msg => Fatal msg end
  | CallGet path handlers => Ok (fst (Get app path handlers))
  | CallHead path handlers => Ok (fst (Head app path handlers))
  | CallAdd method path handlers => Ok (fst (Add app method path handlers))
  | CallGroup prefix handlers => Ok (Group app prefix handlers)
  | CallSetName p name => Ok (set_Name app p name)
  end.

Fixpoint run (app : App) (calls : list call) : result App :=
  match calls with
  | [] => Ok app
  | c :: calls' =>
      match step app c with
      | Ok app' => run app' calls'
      | Fatal msg => Fatal msg
      end
  end.

(** ** Effects of serving a request *)

(** What serving one request does besides computing a response, in order:
    a context is acquired, a route is matched, handler [i] of route [p] ran
    and returned the context [out], the configured error handler is invoked
    on a context and an error, the context is released. *)
Inductive event :=
| EvAcquire
| EvMatch (p : ptr)
| EvHandler (p : ptr) (i : nat) (out : Ctx)
| EvErrorHandler (ctx : Ctx) (err : error)
| EvRelease.

(** Computations that append to the trace of events. *)
Definition M (A : Type) : Type := list event → A * list event.

Definition ret {A} (a : A) : M A := λ tr, (a, tr).

Definition bind {A B} (m : M A) (k : A → M B) : M B :=
  λ tr, let (a, tr') := m tr in k a tr'.

Definition emit (e : event) : M unit := λ tr, (tt, (tr ++ [e])%list).

Notation "'let!' x := m 'in' k" := (bind m (λ x, k))
  (at level 10, x name, m at level 200, k at level 200).
Notation "'let!' ' pat := m 'in' k" := (bind m (λ x, match x with pat => k end))
  (at level 10, pat pattern, m at level 200, k at level 200).

(** The trace of a computation started on the empty trace. *)
Definition trace_of {A} (m : M A) : list event := snd (m []).
Definition value_of {A} (m : M A) : A := fst (m []).

(** Every computation of the model only appends to the trace. *)
Definition appends {A} (m : M A) : Prop :=
  ∀ tr, m tr = (fst (m []), (tr ++ snd (m []))%list).

(** The invocations of the error handler in a trace, and the routes
    matched, both in order. *)
Definition hook_calls (tr : list event) : list (Ctx * error) :=
  omap (λ e, match e with EvErrorHandler ctx err => Some (ctx, err) | _ => None end) tr.

Definition matched_routes (tr : list event) : list ptr :=
  omap (λ e, match e with EvMatch p => Some p | _ => None end) tr.

(** The request as the transport hands it over ([*fasthttp.RequestCtx]). *)
Record RequestCtx := mkRequestCtx { req_method : string; req_path : string }.

(** Modelled from the spec: [app.AcquireCtx] and [app.ReleaseCtx] are
    declared with the context. Acquisition hands out a fully reset context
    for the request (cursor 0, no error, no parameters, cleared response);
    release returns it to the pool. *)
Definition AcquireCtx (app : App) (fctx : RequestCtx) : M Ctx :=
  let! _ := emit EvAcquire in
  ret (mkCtx (req_method fctx) (req_path fctx) [] None 0 None 200%Z ∅ EmptyString).

Definition ReleaseCtx (app : App) (ctx : Ctx) : M Ctx :=
  let! _ := emit EvRelease in
  ret ctx.

(** The call [app.Settings.ErrorHandler(ctx, err)]. Calling a [nil] hook
    would panic: nothing is invoked then. [New] never leaves it [nil]. *)
Definition call_ErrorHandler (app : App) (ctx : Ctx) (err : error) : M Ctx :=
  match ErrorHandler (app_Settings app) with
  | Some hook =>
      let! _ := emit (EvErrorHandler ctx err) in
      ret (hook ctx err)
  | None => ret ctx
  end.

(** The type assertions of the transport error hook. *)
Definition is_ErrSmallBuffer (err : error) : bool :=
  match err with ErrSmallBuffer _ => true | _ => false end.

Definition is_net_timeout (err : error) : bool :=
  match err with NetOpError timeout _ => timeout | _ => false end.

(** The [if]/[else if] chain of the hook: the structured error stored in
    [ctx.err]. *)
Definition transport_error (err : error) : Error :=
  if is_ErrSmallBuffer err then ErrRequestHeaderFieldsTooLarge
  else if is_net_timeout err then ErrRequestTimeout
  else if (String.length (error_string err) =? 33)%nat
          && String.eqb (error_string err) "body size exceeds the given limit"
  then ErrRequestEntityTooLarge
  else ErrBadRequest.

(** The [ErrorHandler] closure that [init] installs in the fasthttp
    server: [func(fctx *fasthttp.RequestCtx, err error)]. *)
Definition server_ErrorHandler (app : App) (fctx : RequestCtx) (err : error) : M Ctx :=
  let! ctx := AcquireCtx app fctx in
  let ctx := set_err ctx (Some (ErrorPtr (transport_error err))) in
  let! ctx := call_ErrorHandler app ctx (ErrorPtr (transport_error err)) in
  ReleaseCtx app ctx.

(** ** Dispatch *)

Section Dispatcher.
(** The path matcher of a route: [route_match r path] is the list of
    parameter values when the pattern of [r] accepts [path]. The matcher
    is declared with the router; the dispatcher only asks it. *)
Variable route_match : Route → string → option (list string).

(** How the handler chain of one route ended: a handler returned without
    calling the continuation, the continuation was called past the last
    handler, or a handler left an error in the error slot. *)
Inductive chain_end := ChainStop | ChainNext | ChainError.

Definition set_cursor (ctx : Ctx) (i : nat) : Ctx :=
  mkCtx (ctx_method ctx) (ctx_path ctx) (ctx_values ctx) (ctx_route ctx)
        i (ctx_err ctx) (resp_status ctx) (resp_headers ctx) (resp_body ctx).

Definition bind_route (ctx : Ctx) (p : ptr) (values : list string) : Ctx :=
  mkCtx (ctx_method ctx) (ctx_path ctx) values (Some p)
        0 (ctx_err ctx) (resp_status ctx) (resp_headers ctx) (resp_body ctx).

(** Modelled from the spec: step 3 of the dispatcher (the router and the
    continuation [Next] are declared outside [app.go]). The handlers of
    the matched route [p] run from cursor [i]; an error in the slot ends
    the chain, a handler that does not call the continuation ends it,
    and the continuation past the last handler leaves the route. *)
Fixpoint run_handlers (p : ptr) (i : nat) (hs : list Handler) (ctx : Ctx)
  : M (Ctx * chain_end) :=
  match hs with
  | [] => ret (ctx, ChainNext)
  | hd :: hs' =>
      let '(ctx', continue) := hd (set_cursor ctx i) in
      let! _ := emit (EvHandler p i ctx') in
      match ctx_err ctx' with
      | Some _ => ret (ctx', ChainError)
      | None =>
          if continue then run_handlers p (S i) hs' ctx'
          else ret (ctx', ChainStop)
      end
  end.

(** Modelled from the spec: steps 1 to 3 of the dispatcher over the rest
    [bucket] of the stack of the request's method, in stack order. The
    first route whose matcher accepts the path is selected and bound, and
    its chain runs; when the chain continues past its last handler the
    scan resumes after that route. When no route is left, a not-found
    error is put in the error slot. *)
Fixpoint next (app : App) (bucket : list ptr) (ctx : Ctx) : M Ctx :=
  match bucket with
  | [] => ret (set_err ctx (Some (ErrorPtr ErrNotFound)))
  | p :: bucket' =>
      match route_match (deref app p) (ctx_path ctx) with
      | None => next app bucket' ctx
      | Some values =>
          let! _ := emit (EvMatch p) in
          let! '(ctx', e) := run_handlers p 0 (Handlers (deref app p))
                                        (bind_route ctx p values) in
          match e with
          | ChainNext => next app bucket' ctx'
          | _ => ret ctx'
          end
      end
  end.

(** The stack scanned for a request method; a USE route was put on every
    stack at registration, so the scan meets middleware and routes of
    the method in one order. An unknown method has no stack. *)
Definition bucket_of (app : App) (method : string) : list ptr :=
  match methodInt method with
  | Some m => default [] (stack app !! m)
  | None => []
  end.

(** The context after steps 1 to 3, before error dispatch. *)
Definition serve (app : App) (fctx : RequestCtx) : M Ctx :=
  let! ctx := AcquireCtx app fctx in
  next app (bucket_of app (req_method fctx)) ctx.

(** Modelled from the spec: the dispatcher of section 4.3. Steps 1 to 3
    are [serve]; step 4 invokes the configured error handler when the
    error slot is non-empty (no match leaves the not-found error there);
    step 5 releases the context. *)
Definition dispatch (app : App) (fctx : RequestCtx) : M Ctx :=
  let! ctx := serve app fctx in
  let! ctx :=
    match ctx_err ctx with
    | Some err => call_ErrorHandler app ctx err
    | None => ret ctx
    end in
  ReleaseCtx app ctx.
End Dispatcher.

(** ** Vocabulary of the statements *)

Section Vocabulary.
Variable h : ptr → Route.

(** Ascending positions. *)
Definition le_pos (p q : ptr) : Prop := (pos (h p) ≤ pos (h q))%Z.

Definition is_USE (p : ptr) : bool := String.eqb (Method (h p)) "USE".

Definition same_Name (p q : ptr) : bool := String.eqb (Name (h p)) (Name (h q)).

(** [p] is a USE route and no USE route registered before it carries the
    same name. *)
Definition first_named (p : ptr) : bool :=
  is_USE p && forallb (λ q, negb (is_USE q && same_Name q p)) (seq 0 p).

(** The names of the USE routes of a list, in order. *)
Definition USE_names (routes : list ptr) : list string :=
  (λ p, Name (h p)) <$> filter (λ p, is_USE p) routes.

(** Coverage: every USE route below [n] has a route of its name in
    [routes]. *)
Definition covered (n : nat) (routes : list ptr) : Prop :=
  ∀ p, (p < n)%nat → is_USE p = true →
       ∃ q, q ∈ routes ∧ is_USE q = true ∧ same_Name q p = true.

(** The routes that [Routes] lists: the first USE route of each name, and
    every route registered under an HTTP method. *)
Definition enumerated (p : ptr) : bool :=
  if is_USE p then first_named p
  else bool_decide (Method (h p) ∈ methodINT).

(** What the scan of stack [m] adds once every USE name is collected:
    the routes registered under the method numbered [m]. *)
Definition own (m : nat) (p : ptr) : bool :=
  negb (is_USE p)
  && receives (Method (h p)) m
  && negb ((m =? 1)%nat && String.eqb (Method (h p)) MethodGet).
End Vocabulary.

(** The shape of an application that registration maintains: handles are
    given out in registration order, the route behind handle [p] has
    position [p + 1], and the stack of method number [m] holds, in
    registration order, the handles of the routes it [receives]. *)
Record table_ok (app : App) : Prop := mk_table_ok {
  ok_routes : routes app = Z.of_nat (length (heap app));
  ok_pos : ∀ p r, heap app !! p = Some r → pos r = (Z.of_nat p + 1)%Z;
  ok_length : length (stack app) = length methodINT;
  ok_stack : ∀ m bucket, stack app !! m = Some bucket →
      bucket = filter (λ p, receives (Method (deref app p)) m)
                      (seq 0 (length (heap app)))
}.

(** The stacks named by the statements. *)
Definition stack_GET (app : App) : list ptr := default [] (stack app !! 0).
Definition stack_HEAD (app : App) : list ptr := default [] (stack app !! 1).

(** Number of occurrences of a handle in a list of handles. *)
Definition occurrences (p : ptr) (l : list ptr) : nat :=
  length (filter (λ q, q = p) l).

(** ** Sample programs *)

(** A middleware that calls the continuation, a handler that answers, and a
    handler that signals a structured error. *)
Definition pass : Handler := λ ctx, (ctx, true).
Definition pong : Handler := λ ctx, (SendString ctx "pong", false).
Definition teapot : Handler :=
  λ ctx, (set_err ctx (Some (ErrorPtr (NewError 418 ["teapot"]))), false).

(** Eight registrations, handles 0 to 7, two of them named afterwards:
    USE routes 0 and 5 stay unnamed, USE routes 2 and 6 are both named
    [auth]. *)
Definition sample_calls : list call :=
  [ CallUse [ArgHandler pass];
    CallGet "/a" [pong];
    CallUse [ArgString "/api"; ArgHandler pass];
    CallSetName 2 "auth";
    CallHead "/h" [pong];
    CallAdd MethodPost "/p" [pong];
    CallUse [ArgHandler pass];
    CallUse [ArgHandler pass];
    CallSetName 6 "auth";
    CallGet "/b" [pong] ].

Definition app_of (r : result App) : App :=
  match r with Ok app => app | Fatal _ => New [] end.

Definition sample_app : App := app_of (run (New []) sample_calls).

(** A broad pattern registered before a more specific one, a middleware
    before the route it guards, and a route that fails. *)
Definition router_calls : list call :=
  [ CallGet "/users/*" [pong];
    CallGet "/users/me" [pong];
    CallUse [ArgString "/api"; ArgHandler pass];
    CallGet "/api/ping" [pong];
    CallGet "/tea" [teapot] ].

Definition router_app : App := app_of (run (New []) router_calls).

(** Three patterns, from broad to specific, that all accept the path
    [/users/me]. *)
Definition overlap_calls : list call :=
  [ CallGet "/*" [pong];
    CallGet "/users/*" [pong];
    CallGet "/users/me" [pong] ].

Definition overlap_app : App := app_of (run (New []) overlap_calls).

(** A small matcher for the samples: a USE route accepts the paths that
    begin with its prefix, a pattern ending in a star accepts the paths
    that begin with what precedes the star (and binds the rest), any other
    pattern accepts itself. *)
Definition sample_match (r : Route) (path : string) : option (list string) :=
  let pat := Path r in
  let n := String.length pat in
  if String.eqb (Method r) "USE" then
    if String.prefix pat path then Some [] else None
  else if String.eqb (String.substring (n - 1) 1 pat) "*" then
    let pre := String.substring 0 (n - 1) pat in
    if String.prefix pre path
    then Some [String.substring (n - 1) (String.length path - (n - 1)) path]
    else None
  else if String.eqb pat path then Some [] else None.

(** ** The arguments of [Use] and the loop of [All] *)

(** The string arguments and the handler arguments of a call of [Use],
    each in argument order. *)
Definition arg_strings (args : list arg) : list string :=
  omap (λ a, match a with ArgString s => Some s | _ => None end) args.

Definition arg_handlers (args : list arg) : list Handler :=
  omap (λ a, match a with ArgHandler hd => Some hd | _ => None end) args.

(** The body of the loop of [All] for the method numbered [i]; a [nil]
    slot of the slice [routes] is [None]. *)
Definition All_step (path : string) (handlers : list Handler)
    (state : App * list (option ptr)) (i : nat) : App * list (option ptr) :=
  let '(app, routes) := state in
  match methodINT !! i with
  | Some method =>
      let '(app', p) := Add app method path handlers in
      (app', <[i := Some p]> routes)
  | None => (app, routes)
  end.

(** [func (app *App) All(path string, handlers ...Handler) []*Route]. The
    loop ranges over the map [methodINT], and Go leaves the order of a map
    range unspecified: [order] lists the method numbers as the loop visits
    them. *)
Definition All (order : list nat) (app : App) (path : string)
    (handlers : list Handler) : App * list (option ptr) :=
  foldl (All_step path handlers) (app, replicate (length methodINT) None) order.

(** The entries of the stacks that the scan of [Routes] does not pass
    over, in the order of the scan: every entry, but for the GET routes on
    stack 1. *)
Fixpoint scanned_from (h : ptr → Route) (m : nat) (stack : list (list ptr))
  : list ptr :=
  match stack with
  | [] => []
  | bucket :: stack' =>
      filter (λ p, ¬ (m = 1%nat ∧ Method (h p) = MethodGet)) bucket
      ++ scanned_from h (S m) stack'
  end.

Definition scanned (h : ptr → Route) (stack : list (list ptr)) : list ptr :=
  scanned_from h 0 stack.

(** [p] stands in [l] before every USE route of its name. *)
Definition first_of_name (h : ptr → Route) (l : list ptr) (p : ptr) : Prop :=
  ∃ l1 l2, l = (l1 ++ p :: l2)%list
           ∧ ∀ q, q ∈ l1 → ¬ (is_USE h q = true ∧ same_Name h q p = true).

(** ** Serving: [init], [Serve], [Listen] and [Shutdown] *)

(** The argument [address interface{}] of [Listen] by dynamic type: a
    string, an [int], or a value of another type. *)
Inductive address :=
| AddrString (s : string)
| AddrInt (port : Z)
| AddrOther (type_name : string).

(** Go's [strings.Contains(s, substr)]. *)
Fixpoint Contains (s substr : string) : bool :=
  String.prefix substr s
  || match s with
     | EmptyString => false
     | String _ s' => Contains s' substr
     end.

(** Go's [strconv.Itoa]: the decimal digits, after a minus sign for a
    negative number. *)
Definition Itoa (i : Z) : string := pretty i.

(** The head of [Listen], up to the call of [init]: the conversion of the
    address to the string the listener is opened on, or the error
    returned. *)
Definition Listen_addr (a : address) : error + string :=
  let converted :=
    match a with
    | AddrString s => Some s
    | AddrInt port => Some (Itoa port)
    | AddrOther _ => None
    end in
  match converted with
  | None => inl (OtherError "listen: host must be an `int` port or `string` address")
  | Some addr => inr (if Contains addr ":" then addr else ":" ++ addr)
  end.

(** The fields of [Settings] that only [init], [Serve] and [Listen] read;
    they are fields of the same Go struct as those of [Settings] above.
    [Templates] tells whether the field is non-[nil]; [Views] is [None] for
    a [nil] engine and otherwise holds the error that its [Load()] returns
    ([None] for [nil]). [Prefork] is the value [New] leaves, the command
    line flag taken in. *)
Record ServeSettings := mkServeSettings {
  ServerHeader : string;
  Prefork : bool;
  DisableKeepalive : bool;
  DisableDefaultDate : bool;
  DisableDefaultContentType : bool;
  DisableHeaderNormalizing : bool;
  DisableStartupMessage : bool;
  Templates : bool;
  Views : option (option error);
  ReadTimeout : Z;
  WriteTimeout : Z;
  IdleTimeout : Z
}.

Module fasthttp.
(** The fields of [fasthttp.Server] that [init] writes. The logger is the
    no-op [disableLogger] or [nil]; the request handler is the method value
    [app.handler] or [nil]; the error handler is a closure over the
    application pointer, so a function of the application as it is when
    the transport calls it. *)
Inductive logger := disableLogger.
Inductive handler := app_handler.

Record Server := mkServer {
  Logger : option logger;
  LogAllErrors : bool;
  ErrorHandler : option (App → RequestCtx → error → M Ctx);
  Handler : option handler;
  Name : string;
  Concurrency : Z;
  NoDefaultDate : bool;
  NoDefaultContentType : bool;
  DisableHeaderNamesNormalizing : bool;
  DisableKeepalive : bool;
  MaxRequestBodySize : Z;
  NoDefaultServerHeader : bool;
  ReadTimeout : Z;
  WriteTimeout : Z;
  IdleTimeout : Z;
  ReadBufferSize : Z;
  WriteBufferSize : Z
}.
End fasthttp.

(** The application with what serving adds to it: the remaining settings
    and the field [server], [None] while it is [nil]. *)
Record Process := mkProcess {
  proc_app : App;
  proc_Settings : ServeSettings;
  server : option fasthttp.Server
}.

(** What the serving methods do to their surroundings, in order: the
    mutex of the application is locked and unlocked, a line is printed on
    standard output, the view engine is loaded, [startupMessage] is called
    for an address (it prints the banner unless the process is a prefork
    child), [prefork] is called for an address, a listener is opened, a
    listener is wrapped for TLS, the server serves a listener (given by
    its address), the server is asked to shut down. *)
Inductive effect :=
| MutexLock
| MutexUnlock
| Stdout (line : string)
| ViewsLoad
| StartupMessage (addr : string)
| PreforkStart (addr : string)
| NetListen (network addr : string)
| TLSNewListener
| ServerServe (addr : string)
| ServerShutdown.

(** The server that [init] creates when there is none. *)
Definition new_Server : fasthttp.Server :=
  fasthttp.mkServer (Some fasthttp.disableLogger) false (Some server_ErrorHandler)
                    None EmptyString 0 false false false false 0 false 0 0 0 0 0.

(** The assignments of [init] to the fields of the server. *)
Definition configure (app : App) (s : ServeSettings) (srv : fasthttp.Server)
  : fasthttp.Server :=
  fasthttp.mkServer
    (fasthttp.Logger srv) (fasthttp.LogAllErrors srv) (fasthttp.ErrorHandler srv)
    (match fasthttp.Handler srv with
     | None => Some fasthttp.app_handler
     | hd => hd
     end)
    (ServerHeader s)
    (Concurrency (app_Settings app))
    (DisableDefaultDate s)
    (DisableDefaultContentType s)
    (DisableHeaderNormalizing s)
    (DisableKeepalive s)
    (BodyLimit (app_Settings app))
    (String.eqb (ServerHeader s) EmptyString)
    (ReadTimeout s) (WriteTimeout s) (IdleTimeout s)
    (ReadBufferSize (app_Settings app))
    (WriteBufferSize (app_Settings app)).

(** [func (app *App) init() *App]. The settings pointer of an application
    made by [New] is never [nil]. *)
Definition init (st : Process) : Process * list effect :=
  let s := proc_Settings st in
  let deprecated :=
    if Templates s
    then [Stdout "`Templates` are deprecated since v1.12.x, please us `Views` instead"]
    else [] in
  let loaded :=
    match Views s with
    | Some load =>
        ViewsLoad :: match load with
                     | Some err => [Stdout ("views: " ++ error_string err)]
                     | None => []
                     end
    | None => []
    end in
  let srv := match server st with None => new_Server | Some srv => srv end in
  (mkProcess (proc_app st) s (Some (configure (proc_app st) s srv)),
   [MutexLock] ++ deprecated ++ loaded ++ [MutexUnlock])%list.

Section Serving.
(** The configuration type [tls.Config], and what the surroundings
    answer: the error of [net.Listen(network, addr)], of
    [app.prefork(addr, tlsconfig...)], of [server.Serve(ln)] and of
    [server.Shutdown()], each [None] for [nil]. *)
Variable tls_Config : Type.
Variable net_Listen : string → string → option error.
Variable prefork : string → list tls_Config → option error.
Variable server_Serve : option error.
Variable server_Shutdown : option error.

(** [func (app *App) Serve(ln net.Listener, tlsconfig ...*tls.Config) error];
    the listener is given by its address, which wrapping it for TLS keeps. *)
Definition Serve (st : Process) (ln : string) (tlsconfig : list tls_Config)
  : option error * Process * list effect :=
  let '(st, tr) := init st in
  let tr := (tr ++ match tlsconfig with [] => [] | _ => [TLSNewListener] end)%list in
  let tr :=
    (tr ++ if DisableStartupMessage (proc_Settings st) then []
           else [StartupMessage ln])%list in
  (server_Serve, st, (tr ++ [ServerServe ln])%list).

(** [func (app *App) Listen(address interface{}, tlsconfig ...*tls.Config) error] *)
Definition Listen (st : Process) (a : address) (tlsconfig : list tls_Config)
  : option error * Process * list effect :=
  match Listen_addr a with
  | inl err => (Some err, st, [])
  | inr addr =>
      let '(st, tr) := init st in
      let tr :=
        (tr ++ if DisableStartupMessage (proc_Settings st) then []
               else [StartupMessage addr])%list in
      if Prefork (proc_Settings st)
      then (prefork addr tlsconfig, st, (tr ++ [PreforkStart addr])%list)
      else
        match net_Listen "tcp4" addr with
        | Some err => (Some err, st, (tr ++ [NetListen "tcp4" addr])%list)
        | None =>
            let tr := (tr ++ [NetListen "tcp4" addr])%list in
            let tr :=
              (tr ++ match tlsconfig with [] => [] | _ => [TLSNewListener] end)%list in
            (server_Serve, st, (tr ++ [ServerServe addr])%list)
        end
  end.

(** [func (app *App) Shutdown() error] *)
Definition Shutdown (st : Process) : option error * Process * list effect :=
  match server st with
  | None =>
      (Some (OtherError "shutdown: server is not running"), st,
       [MutexLock; MutexUnlock])
  | Some _ => (server_Shutdown, st, [MutexLock; ServerShutdown; MutexUnlock])
  end.
End Serving.

Arguments Serve {tls_Config} server_Serve st ln tlsconfig.
Arguments Listen {tls_Config} net_Listen prefork server_Serve st a tlsconfig.

(** The mutex events of a trace. *)
Definition is_mutex (e : effect) : bool :=
  match e with MutexLock | MutexUnlock => true | _ => false end.

Definition mutex_events (tr : list effect) : list effect :=
  filter (λ e, is_mutex e) tr.

(** The same process with another view engine and [Templates] field. *)
Definition with_Views (templates : bool) (views : option (option error))
    (st : Process) : Process :=
  let s := proc_Settings st in
  mkProcess (proc_app st)
    (mkServeSettings (ServerHeader s) (Prefork s) (DisableKeepalive s)
       (DisableDefaultDate s) (DisableDefaultContentType s)
       (DisableHeaderNormalizing s) (DisableStartupMessage s)
       templates views (ReadTimeout s) (WriteTimeout s) (IdleTimeout s))
    (server st).

(** ** Further samples *)

(** A table that no sequence of registrations builds: positions descend
    along the heap, the two USE routes carry one name and stand on the GET
    stack in reverse, the GET route stands on the stacks of GET and HEAD,
    the HEAD and POST routes stand twice on their stacks. *)
Definition odd_app : App :=
  mkApp [ mkRoute 5 "/a" MethodGet EmptyString [pong];
          mkRoute 4 "/p" MethodPost EmptyString [pong];
          mkRoute 3 "/x" "USE" "x" [pass];
          mkRoute 2 "/y" "USE" "x" [pass];
          mkRoute 1 "/h" MethodHead EmptyString [pong] ]
        [ [3; 0; 2]; [0; 4; 4]; [1; 1]; []; []; []; []; []; [] ]%nat
        5 (app_Settings (New [])).

(** Settings with limits out of range, a process that was never
    initialised, and surroundings in which no listener can be opened. *)
Definition low_Settings : Settings := mkSettings None (-5) 0 100 0 EmptyString.

Definition zero_ServeSettings : ServeSettings :=
  mkServeSettings EmptyString false false false false false false false None 0 0 0.

Definition sample_process : Process :=
  mkProcess sample_app zero_ServeSettings None.

Definition port_in_use : string → string → option error :=
  λ _ addr, Some (OtherError ("listen tcp4 " ++ addr ++ ": bind: address already in use")).

Definition no_prefork : string → list unit → option error := λ _ _, None.

(** * Results *)

Open Scope list_scope.

(** ** The default error handler *)

(** C6: the default error handler answers with the code of a structured
    error and with 500 for any other error, sets the Content-Type header to
    plain text and writes the error's message as the body. *)
Theorem defaultErrorHandler_response (ctx : Ctx) (err : error) :
  let ctx' := defaultErrorHandler ctx err in
  resp_status ctx' = match err with ErrorPtr e => Code e | _ => 500%Z end ∧
  resp_headers ctx' !! "Content-Type" = Some "text/plain; charset=utf-8" ∧
  resp_body ctx' = error_string err ∧
  error_string err = match err with
                     | ErrorPtr e => Message e
                     | ErrSmallBuffer msg | NetOpError _ msg | OtherError msg => msg
                     end.
Proof.
  cbn zeta. unfold defaultErrorHandler.
  split; [by destruct err|].
  split; [cbn; apply lookup_insert_eq|].
  split; [reflexivity|by destruct err].
Qed.

Lemma New_ErrorHandler (settings : list Settings) :
  is_Some (ErrorHandler (app_Settings (New settings))).
Proof.
  unfold New; cbn. destruct settings as [|s ?]; cbn; [eauto|].
  destruct (ErrorHandler s); eauto.
Qed.

(** ** Traces *)

Lemma appends_ret {A} (a : A) : appends (ret a).
Proof. intros tr. unfold ret; cbn. by rewrite app_nil_r. Qed.

Lemma appends_emit e : appends (emit e).
Proof. intros tr. reflexivity. Qed.

Lemma appends_bind {A B} (m : M A) (k : A → M B) :
  appends m → (∀ a, appends (k a)) → appends (bind m k).
Proof.
  intros Hm Hk tr. unfold bind. rewrite (Hm tr). cbn.
  destruct (m []) as [a tr1] eqn:E; cbn.
  rewrite (Hk a (tr ++ tr1)%list), (Hk a tr1). cbn. by rewrite app_assoc.
Qed.

Lemma trace_of_bind {A B} (m : M A) (k : A → M B) :
  appends m → (∀ a, appends (k a)) →
  trace_of (bind m k) = (trace_of m ++ trace_of (k (value_of m)))%list.
Proof.
  intros Hm Hk. unfold trace_of, value_of, bind.
  destruct (m []) as [a tr1] eqn:E; cbn. by rewrite (Hk a tr1).
Qed.

Lemma value_of_bind {A B} (m : M A) (k : A → M B) :
  appends m → (∀ a, appends (k a)) →
  value_of (bind m k) = value_of (k (value_of m)).
Proof.
  intros Hm Hk. unfold trace_of, value_of, bind.
  destruct (m []) as [a tr1] eqn:E; cbn. by rewrite (Hk a tr1).
Qed.

Lemma appends_AcquireCtx app fctx : appends (AcquireCtx app fctx).
Proof. apply appends_bind; [apply appends_emit|intros; apply appends_ret]. Qed.

Lemma appends_ReleaseCtx app ctx : appends (ReleaseCtx app ctx).
Proof. apply appends_bind; [apply appends_emit|intros; apply appends_ret]. Qed.

Lemma appends_call_ErrorHandler app ctx err : appends (call_ErrorHandler app ctx err).
Proof.
  unfold call_ErrorHandler. destruct (ErrorHandler _); [|apply appends_ret].
  apply appends_bind; [apply appends_emit|intros; apply appends_ret].
Qed.

Lemma hook_calls_app tr1 tr2 :
  hook_calls (tr1 ++ tr2) = (hook_calls tr1 ++ hook_calls tr2)%list.
Proof. apply omap_app. Qed.

Lemma matched_routes_app tr1 tr2 :
  matched_routes (tr1 ++ tr2) = (matched_routes tr1 ++ matched_routes tr2)%list.
Proof. apply omap_app. Qed.

(** ** The transport error hook *)

Lemma body_limit_message_length :
  String.length "body size exceeds the given limit" = 33.
Proof. reflexivity. Qed.

(** The guard on the length is implied by the comparison of the strings. *)
Lemma transport_error_cases (err : error) :
  transport_error err =
    match err with
    | ErrSmallBuffer _ => ErrRequestHeaderFieldsTooLarge
    | NetOpError true _ => ErrRequestTimeout
    | _ => if decide (error_string err = "body size exceeds the given limit")
           then ErrRequestEntityTooLarge else ErrBadRequest
    end.
Proof.
  unfold transport_error.
  assert (Hbody : ∀ msg,
    (String.length msg =? 33)%nat && String.eqb msg "body size exceeds the given limit"
    = bool_decide (msg = "body size exceeds the given limit")).
  { intros msg. destruct (String.eqb_spec msg "body size exceeds the given limit") as [->|Hne].
    - reflexivity.
    - rewrite andb_false_r. symmetry. by apply bool_decide_eq_false. }
  destruct err as [e|msg|[] msg|msg]; cbn [is_ErrSmallBuffer is_net_timeout];
    try reflexivity; rewrite Hbody; case_bool_decide; by case_decide.
Qed.

Lemma transport_errors_distinct :
  NoDup [ErrRequestHeaderFieldsTooLarge; ErrRequestTimeout;
         ErrRequestEntityTooLarge; ErrBadRequest].
Proof.
  repeat constructor; rewrite ?elem_of_cons, ?elem_of_nil; intros H;
    repeat destruct H as [H|H]; try discriminate H; done.
Qed.

(** C7: a transport fault is classified into exactly one of four structured
    errors (header too large for a small buffer, request timeout for a
    network timeout, body too large for the body-limit fault, bad request
    otherwise), and the configured error handler is invoked, once, with the
    context holding that error and with that error. *)
Theorem server_ErrorHandler_classifies
    (app : App) (hook : Ctx → error → Ctx) (fctx : RequestCtx) (err : error) :
  ErrorHandler (app_Settings app) = Some hook →
  let e := transport_error err in
  e = match err with
      | ErrSmallBuffer _ => ErrRequestHeaderFieldsTooLarge
      | NetOpError true _ => ErrRequestTimeout
      | _ => if decide (error_string err = "body size exceeds the given limit")
             then ErrRequestEntityTooLarge else ErrBadRequest
      end
  ∧ e ∈ [ErrRequestHeaderFieldsTooLarge; ErrRequestTimeout;
         ErrRequestEntityTooLarge; ErrBadRequest]
  ∧ NoDup [ErrRequestHeaderFieldsTooLarge; ErrRequestTimeout;
           ErrRequestEntityTooLarge; ErrBadRequest]
  ∧ ∃ ctx, hook_calls (trace_of (server_ErrorHandler app fctx err)) = [(ctx, ErrorPtr e)]
           ∧ ctx_err ctx = Some (ErrorPtr e)
           ∧ value_of (server_ErrorHandler app fctx err) = hook ctx (ErrorPtr e).
Proof.
  intros Hhook e. split; [apply transport_error_cases|]. split.
  { subst e. rewrite transport_error_cases.
    destruct err as [?|?|[] ?|?]; cbn; repeat case_decide; set_solver. }
  split; [apply transport_errors_distinct|].
  eexists. unfold server_ErrorHandler, call_ErrorHandler, trace_of, value_of.
  rewrite Hhook. cbn. repeat split; reflexivity.
Qed.

(** A fault of each kind, and the body-limit fault served by an
    application made by [New]. *)
Lemma server_ErrorHandler_classifies_witness :
  let app := New [] in
  let fctx := mkRequestCtx "GET" "/" in
  let err := OtherError "body size exceeds the given limit" in
  Code (transport_error (ErrSmallBuffer "small read buffer")) = 431%Z
  ∧ Code (transport_error (NetOpError true "i/o timeout")) = 408%Z
  ∧ Code (transport_error (NetOpError false "connection reset")) = 400%Z
  ∧ transport_error err = ErrRequestEntityTooLarge
  ∧ ∃ ctx, hook_calls (trace_of (server_ErrorHandler app fctx err))
           = [(ctx, ErrorPtr (transport_error err))].
Proof.
  cbn zeta. do 4 (split; [reflexivity|]).
  destruct (server_ErrorHandler_classifies (New []) defaultErrorHandler
              (mkRequestCtx "GET" "/")
              (OtherError "body size exceeds the given limit") eq_refl)
    as (_ & _ & _ & ctx & Hcalls & _).
  exists ctx. exact Hcalls.
Defined.

(** ** Registration: malformed arguments of [Use] *)

Lemma Use_args_Fatal_iff args prefix handlers :
  (∃ msg, Use_args args prefix handlers = Fatal msg) ↔ ∃ t, ArgOther t ∈ args.
Proof.
  revert prefix handlers.
  induction args as [|[s|hd|t] args IH]; intros prefix handlers; cbn.
  - split; [intros [? [=]]|intros [? H%elem_of_nil]; done].
  - rewrite IH. split; intros [t Ht]; exists t.
    + by right.
    + by apply elem_of_cons in Ht as [[=]|Ht].
  - rewrite IH. split; intros [t Ht]; exists t.
    + by right.
    + by apply elem_of_cons in Ht as [[=]|Ht].
  - split; [intros _; exists t; left|eauto].
Qed.

Lemma run_app app calls1 calls2 :
  run app (calls1 ++ calls2) =
    match run app calls1 with
    | Ok app' => run app' calls2
    | Fatal msg => Fatal msg
    end.
Proof.
  revert app. induction calls1 as [|c calls1 IH]; intros app; cbn; [done|].
  destruct (step app c); [apply IH|done].
Qed.

(** C8: an argument of [Use] that is neither a string nor a handler ends
    the call in a fatal error: no route is registered, and in any program
    the calls after it, hence serving, are never reached. Arguments that
    are strings or handlers never do. *)
Theorem Use_invalid_argument_is_fatal (app : App) (args : list arg) (t : string) :
  ArgOther t ∈ args →
  ∃ msg, Use app args = Fatal msg
         ∧ ∀ app0 before after,
             run app0 before = Ok app →
             run app0 (before ++ CallUse args :: after) = Fatal msg.
Proof.
  intros Hin.
  destruct (proj2 (Use_args_Fatal_iff args EmptyString []) (ex_intro _ t Hin))
    as [msg Hmsg].
  exists msg. unfold Use. rewrite Hmsg. split; [done|].
  intros app0 before after Hrun. rewrite run_app, Hrun. cbn.
  unfold Use. by rewrite Hmsg.
Qed.

Lemma Use_invalid_argument_is_fatal_witness :
  ∃ msg, Use (New []) [ArgString "/api"; ArgOther "int"] = Fatal msg
         ∧ run (New []) ([] ++ [CallUse [ArgString "/api"; ArgOther "int"];
                                CallGet "/" []]) = Fatal msg.
Proof.
  destruct (Use_invalid_argument_is_fatal (New [])
              [ArgString "/api"; ArgOther "int"] "int") as (msg & Hmsg & Hrun).
  { right. left. }
  exists msg. split; [exact Hmsg|]. apply (Hrun (New []) [] [CallGet "/" []]).
  reflexivity.
Defined.

Lemma Use_valid_arguments_register (app : App) (args : list arg) :
  (∀ t, ArgOther t ∉ args) → ∃ app' p, Use app args = Ok (app', p).
Proof.
  intros Hvalid. unfold Use.
  destruct (Use_args args EmptyString []) as [[prefix handlers]|msg] eqn:E.
  - destruct (register app "USE" prefix handlers) as [app' p]. eauto.
  - destruct (proj1 (Use_args_Fatal_iff args EmptyString []) (ex_intro _ msg E))
      as [t Ht]. by destruct (Hvalid t).
Qed.

(** ** Sorting *)

Section Sorting.
Variable h : ptr → Route.

Lemma insert_sorted_Permutation x l : insert_sorted (less_pos h) x l ≡ₚ x :: l.
Proof.
  induction l as [|y l IH]; cbn; [done|].
  destruct (less_pos h x y); [done|]. rewrite IH. apply Permutation_swap.
Qed.

Lemma sort_Slice_Permutation_from sorted l :
  foldl (λ sorted x, insert_sorted (less_pos h) x sorted) sorted l ≡ₚ sorted ++ l.
Proof.
  revert sorted. induction l as [|x l IH]; intros sorted; cbn.
  - by rewrite app_nil_r.
  - rewrite IH, insert_sorted_Permutation. cbn. apply Permutation_middle.
Qed.

Lemma sort_Slice_Permutation l : sort_Slice (less_pos h) l ≡ₚ l.
Proof. apply (sort_Slice_Permutation_from []). Qed.

Lemma insert_sorted_StronglySorted x l :
  StronglySorted (le_pos h) l →
  StronglySorted (le_pos h) (insert_sorted (less_pos h) x l).
Proof.
  induction 1 as [|y l Hl IH Hy]; cbn.
  - repeat constructor.
  - unfold less_pos at 1.
    destruct (Z.ltb_spec (pos (h x)) (pos (h y))) as [Hlt|Hge].
    + constructor; [by constructor|]. constructor; [unfold le_pos; lia|].
      eapply Forall_impl; [exact Hy|]. unfold le_pos. intros; cbn in *; lia.
    + constructor; [exact IH|].
      rewrite (insert_sorted_Permutation x l). by constructor.
Qed.

Lemma sort_Slice_StronglySorted l :
  StronglySorted (le_pos h) (sort_Slice (less_pos h) l).
Proof.
  unfold sort_Slice.
  assert (H : ∀ sorted, StronglySorted (le_pos h) sorted →
    StronglySorted (le_pos h)
      (foldl (λ sorted x, insert_sorted (less_pos h) x sorted) sorted l)).
  { induction l as [|x l IH]; intros sorted Hs; cbn; [done|].
    apply IH. by apply insert_sorted_StronglySorted. }
  apply H. constructor.
Qed.
End Sorting.

(** ** Scanning the stacks *)

Section Scan.
Variable h : ptr → Route.

Lemma is_USE_eq p : is_USE h p = true ↔ Method (h p) = "USE".
Proof. apply String.eqb_eq. Qed.

Lemma same_Name_eq p q : same_Name h p q = true ↔ Name (h p) = Name (h q).
Proof. apply String.eqb_eq. Qed.

Lemma duplicate_from dup routes p :
  foldl (λ dup q,
           if String.eqb (Method (h q)) "USE"
              && String.eqb (Name (h q)) (Name (h p))
           then true else dup) dup routes = true
  ↔ dup = true ∨ ∃ q, q ∈ routes ∧ is_USE h q = true ∧ same_Name h q p = true.
Proof.
  revert dup. induction routes as [|q routes IH]; intros dup; cbn.
  - split; [by left|]. intros [?|(q & Hq%elem_of_nil & _)]; done.
  - rewrite IH. fold (is_USE h q) (same_Name h q p). split.
    + intros [Hd|(q' & Hq' & HU & HN)].
      * destruct (is_USE h q && same_Name h q p) eqn:E; [|by left].
        apply andb_true_iff in E as [? ?]. right. exists q. by rewrite elem_of_cons; auto.
      * right. exists q'. rewrite elem_of_cons. auto.
    + intros [->|(q' & Hq' & HU & HN)].
      * left. by destruct (_ && _).
      * apply elem_of_cons in Hq' as [->|Hq'].
        -- left. by rewrite HU, HN.
        -- right. eauto.
Qed.

Lemma duplicate_true routes p :
  duplicate h routes p = true
  ↔ ∃ q, q ∈ routes ∧ is_USE h q = true ∧ same_Name h q p = true.
Proof.
  unfold duplicate. rewrite duplicate_from. split; [|by right].
  by intros [?|?].
Qed.

(** One step of the scan, by cases. *)
Lemma visit_skip routes p :
  Method (h p) = MethodGet → visit h 1 routes p = routes.
Proof. intros Hm. unfold visit. by rewrite Hm. Qed.

Lemma visit_USE m routes p :
  is_USE h p = true →
  visit h m routes p = if duplicate h routes p then routes else routes ++ [p].
Proof.
  intros HU. unfold visit. fold (is_USE h p). rewrite HU.
  apply is_USE_eq in HU. rewrite HU. by rewrite andb_false_r.
Qed.

Lemma visit_other m routes p :
  is_USE h p = false →
  visit h m routes p =
    if (m =? 1)%nat && String.eqb (Method (h p)) MethodGet then routes
    else routes ++ [p].
Proof. intros HU. unfold visit. fold (is_USE h p). by rewrite HU. Qed.

(** Once every USE name met in a stack is collected, the scan of the stack
    adds its routes of an HTTP method, except GET routes on the HEAD
    stack, and nothing else. *)
Lemma scan_bucket_covered m routes bucket :
  (∀ p, p ∈ bucket → is_USE h p = true →
        ∃ q, q ∈ routes ∧ is_USE h q = true ∧ same_Name h q p = true) →
  scan_bucket h m routes bucket =
    routes ++ filter (λ p, negb (is_USE h p)
                           && negb ((m =? 1)%nat
                                    && String.eqb (Method (h p)) MethodGet))
                     bucket.
Proof.
  revert routes. unfold scan_bucket.
  induction bucket as [|p bucket IH]; intros routes Hcov; cbn [foldl].
  - by rewrite filter_nil, app_nil_r.
  - rewrite filter_cons.
    destruct (is_USE h p) eqn:HU.
    + rewrite visit_USE by done.
      assert (Hd : duplicate h routes p = true).
      { apply duplicate_true, Hcov; [left|done]. }
      rewrite Hd. cbn. rewrite decide_False by (by intros []).
      apply IH. intros p' Hp'. apply Hcov. by right.
    + rewrite visit_other by done. cbn [negb andb].
      destruct ((m =? 1)%nat && String.eqb (Method (h p)) MethodGet) eqn:E; cbn.
      * rewrite decide_False by (by intros []).
        apply IH. intros p' Hp'. apply Hcov. by right.
      * rewrite decide_True by done. rewrite IH.
        -- by rewrite <- app_assoc.
        -- intros p' Hp' HU'.
           destruct (Hcov p' (proj2 (elem_of_cons _ _ _) (or_intror Hp')) HU')
             as (q & Hq & ?). exists q. rewrite elem_of_app. auto.
Qed.

(** On any table whatever, the scan never collects two USE routes of one
    name. *)
Lemma USE_names_snoc routes p :
  USE_names h (routes ++ [p]) =
    USE_names h routes ++ (if is_USE h p then [Name (h p)] else []).
Proof.
  unfold USE_names. rewrite filter_app, fmap_app, filter_cons, filter_nil.
  destruct (is_USE h p); [by rewrite decide_True|].
  by rewrite decide_False by (by intros []).
Qed.

Lemma visit_USE_names m routes p :
  NoDup (USE_names h routes) → NoDup (USE_names h (visit h m routes p)).
Proof.
  intros Hnd. destruct (is_USE h p) eqn:HU.
  - rewrite visit_USE by done.
    destruct (duplicate h routes p) eqn:Hd; [done|].
    rewrite USE_names_snoc, HU. apply NoDup_app. split_and!; [done| |].
    + intros name Hin [->|[]%elem_of_nil]%elem_of_cons.
      apply list_elem_of_fmap in Hin as (q & HN & [HUq Hq]%list_elem_of_filter).
      apply not_true_iff_false in Hd. apply Hd, duplicate_true.
      exists q. split_and!; [done|by apply Is_true_true|].
      apply same_Name_eq. done.
    + apply NoDup_singleton.
  - rewrite visit_other by done.
    destruct (_ && _); [done|]. by rewrite USE_names_snoc, HU, app_nil_r.
Qed.

Lemma scan_bucket_USE_names m routes bucket :
  NoDup (USE_names h routes) → NoDup (USE_names h (scan_bucket h m routes bucket)).
Proof.
  revert routes. unfold scan_bucket.
  induction bucket as [|p bucket IH]; intros routes Hnd; [done|].
  cbn [foldl]. by apply IH, visit_USE_names.
Qed.

Lemma scan_stack_USE_names m routes stack :
  NoDup (USE_names h routes) → NoDup (USE_names h (scan_stack h m routes stack)).
Proof.
  revert m routes. induction stack as [|bucket stack IH]; intros m routes Hnd;
    [done|].
  cbn [scan_stack]. by apply IH, scan_bucket_USE_names.
Qed.

(** Among USE routes, the first of each name. *)
Lemma first_named_true p :
  first_named h p = true
  ↔ is_USE h p = true
    ∧ ∀ q, (q < p)%nat → is_USE h q = true → same_Name h q p = false.
Proof.
  unfold first_named. rewrite andb_true_iff, forallb_forall.
  split; intros [HU Hall]; (split; [done|]).
  - intros q Hq HUq. specialize (Hall q). rewrite in_seq in Hall.
    specialize (Hall ltac:(lia)). rewrite HUq in Hall. cbn in Hall.
    by apply negb_true_iff in Hall.
  - intros q [_ Hq]%in_seq. cbn in Hq.
    destruct (is_USE h q) eqn:HUq; [|done]. cbn. by rewrite (Hall q Hq HUq).
Qed.

Lemma first_named_exists p :
  is_USE h p = true →
  ∃ q, (q ≤ p)%nat ∧ first_named h q = true ∧ same_Name h q p = true.
Proof.
  induction (lt_wf p) as [p _ IH]. intros HU.
  destruct (first_named h p) eqn:Hf.
  - exists p. repeat split; [lia|done|]. by apply same_Name_eq.
  - assert (∃ q, (q < p)%nat ∧ is_USE h q = true ∧ same_Name h q p = true)
      as (q & Hq & HUq & HN).
    { unfold first_named in Hf. rewrite HU in Hf. cbn in Hf.
      apply not_true_iff_false in Hf. rewrite forallb_forall in Hf.
      destruct (existsb (λ q, is_USE h q && same_Name h q p) (seq 0 p)) eqn:Ex.
      - apply existsb_exists in Ex as (q & [_ Hq]%in_seq & [? ?]%andb_true_iff).
        exists q. cbn in Hq. auto.
      - exfalso. apply Hf. intros q Hq. apply negb_true_iff.
        destruct (is_USE h q && same_Name h q p) eqn:E; [|done].
        assert (existsb (λ q, is_USE h q && same_Name h q p) (seq 0 p) = true);
          [|congruence].
        apply existsb_exists. eauto. }
    destruct (IH q Hq HUq) as (q' & Hq' & Hf' & HN').
    exists q'. repeat split; [lia|done|].
    apply same_Name_eq. apply same_Name_eq in HN, HN'. congruence.
Qed.

(** The scan of a stack other than HEAD from the empty list, when the
    stack holds the selected handles below [k] in ascending order and all
    USE routes are selected: it keeps the first USE route of each name and
    every other selected route. *)
Lemma scan_bucket_first m (sel : ptr → bool) k :
  m ≠ 1 →
  (∀ p, is_USE h p = true → sel p = true) →
  scan_bucket h m [] (filter (λ p, sel p) (seq 0 k)) =
    filter (λ p, sel p && (negb (is_USE h p) || first_named h p)) (seq 0 k).
Proof.
  intros Hm Hsel. induction k as [|k IH]; [done|].
  rewrite seq_S, !filter_app. cbn [plus]. unfold scan_bucket in *.
  rewrite foldl_app, IH. clear IH.
  rewrite !filter_cons, !filter_nil.
  destruct (sel k) eqn:Hk; cbn [andb].
  2:{ rewrite !decide_False by (by intros []). cbn. by rewrite app_nil_r. }
  rewrite decide_True by done. cbn [foldl].
  destruct (is_USE h k) eqn:HU; cbn [negb orb].
  - rewrite visit_USE by done.
    destruct (first_named h k) eqn:Hf.
    + rewrite decide_True by done.
      destruct (duplicate h _ k) eqn:Hd; [|done].
      apply duplicate_true in Hd as (q & Hq & HUq & HN).
      apply list_elem_of_filter in Hq as [_ Hq]. apply elem_of_seq in Hq.
      apply first_named_true in Hf as [_ Hf].
      rewrite (Hf q) in HN by (done || lia). done.
    + rewrite decide_False by (by intros []).
      assert (Hd : duplicate h
        (filter (λ p, sel p && (negb (is_USE h p) || first_named h p)) (seq 0 k)) k
        = true); [|by rewrite Hd, app_nil_r].
      apply duplicate_true.
      destruct (first_named_exists k HU) as (q & Hq & Hfq & HN).
      assert (q ≠ k) by (intros ->; congruence).
      exists q. split; [|split; [|done]].
      * apply list_elem_of_filter. split.
        -- apply first_named_true in Hfq as Hq'. destruct Hq' as [HUq _].
           rewrite (Hsel q HUq), Hfq. by rewrite orb_true_r.
        -- apply elem_of_seq. lia.
      * by apply first_named_true in Hfq as [? _].
  - rewrite visit_other by done. rewrite decide_True by done.
    apply Nat.eqb_neq in Hm. by rewrite Hm.
Qed.
End Scan.

(** ** The method table *)

Lemma NoDup_methodINT : NoDup methodINT.
Proof. by apply (bool_decide_unpack _). Qed.

Lemma USE_not_in_methodINT : "USE" ∉ methodINT.
Proof. by apply (bool_decide_unpack _). Qed.

Lemma methodINT_lookup_USE m : methodINT !! m ≠ Some "USE".
Proof.
  intros H. apply USE_not_in_methodINT. by apply list_elem_of_lookup_2 in H.
Qed.

Lemma methodINT_lookup_inj m1 m2 s :
  methodINT !! m1 = Some s → methodINT !! m2 = Some s → m1 = m2.
Proof. apply NoDup_lookup, NoDup_methodINT. Qed.

Lemma receives_USE m : receives "USE" m = true.
Proof. reflexivity. Qed.

Lemma receives_other s m :
  s ≠ "USE" →
  receives s m = true ↔ methodINT !! m = Some s ∨ (s = MethodGet ∧ m = 1).
Proof.
  intros Hs. unfold receives.
  destruct (String.eqb_spec s "USE") as [?|_]; [done|]. cbn.
  rewrite orb_true_iff, andb_true_iff, bool_decide_eq_true, String.eqb_eq,
    Nat.eqb_eq. done.
Qed.

Section Table.
Variable h : ptr → Route.
Variable n : nat.

Lemma own_iff m p : own h m p = true ↔ methodINT !! m = Some (Method (h p)).
Proof.
  unfold own. destruct (is_USE h p) eqn:HU; cbn.
  - apply is_USE_eq in HU. rewrite HU. split; [done|].
    intros H. by apply methodINT_lookup_USE in H.
  - assert (Hne : Method (h p) ≠ "USE").
    { intros H. apply is_USE_eq in H. congruence. }
    rewrite andb_true_iff, negb_true_iff, (receives_other _ _ Hne). split.
    + intros [[H|[HG ->]] Hskip]; [done|].
      rewrite HG in Hskip. by cbn in Hskip.
    + intros H. split; [by left|].
      apply andb_false_iff.
      destruct (Nat.eqb_spec m 1) as [->|?]; [right|by left].
      cbn in H. injection H as <-. reflexivity.
Qed.

Lemma own_filter m :
  filter (λ p, negb (is_USE h p)
               && negb ((m =? 1)%nat && String.eqb (Method (h p)) MethodGet))
         (filter (λ p, receives (Method (h p)) m) (seq 0 n))
  = filter (λ p, own h m p) (seq 0 n).
Proof.
  rewrite list_filter_filter. apply list_filter_iff. intros p. unfold own.
  rewrite !andb_True. tauto.
Qed.

Lemma covered_app routes more : covered h n routes → covered h n (routes ++ more).
Proof.
  intros Hc p Hp HU. destruct (Hc p Hp HU) as (q & Hq & ?).
  exists q. rewrite elem_of_app. auto.
Qed.

Lemma scan_stack_covered k m routes :
  covered h n routes →
  scan_stack h m routes
    ((λ m', filter (λ p, receives (Method (h p)) m') (seq 0 n)) <$> seq m k)
  = routes ++ (seq m k ≫= λ m', filter (λ p, own h m' p) (seq 0 n)).
Proof.
  revert m routes. induction k as [|k IH]; intros m routes Hc.
  - cbn. by rewrite app_nil_r.
  - cbn [seq fmap list_fmap scan_stack]. rewrite scan_bucket_covered.
    + rewrite own_filter, IH by (by apply covered_app).
      by rewrite <- app_assoc.
    + intros p [_ Hp%elem_of_seq]%list_elem_of_filter HU. apply Hc; [lia|done].
Qed.

Lemma first_bucket_covered :
  covered h n (filter (λ p, receives (Method (h p)) 0
                            && (negb (is_USE h p) || first_named h p)) (seq 0 n)).
Proof.
  intros p Hp HU. destruct (first_named_exists h p HU) as (q & Hq & Hf & HN).
  exists q. apply first_named_true in Hf as Hf'. destruct Hf' as [HUq _].
  split; [|done]. apply list_elem_of_filter. split; [|apply elem_of_seq; lia].
  apply is_USE_eq in HUq as HM. rewrite HM, receives_USE, Hf. by rewrite orb_true_r.
Qed.

(** The routes collected from a table of the registered shape, before they
    are sorted. *)
Lemma scan_stack_registered :
  scan_stack h 0 []
    ((λ m, filter (λ p, receives (Method (h p)) m) (seq 0 n))
       <$> seq 0 (length methodINT))
  = filter (λ p, receives (Method (h p)) 0
                 && (negb (is_USE h p) || first_named h p)) (seq 0 n)
    ++ (seq 1 8 ≫= λ m, filter (λ p, own h m p) (seq 0 n)).
Proof.
  change (seq 0 (length methodINT)) with (0 :: seq 1 8).
  cbn [fmap list_fmap scan_stack].
  rewrite (scan_bucket_first h 0 (λ p, receives (Method (h p)) 0) n).
  - apply scan_stack_covered, first_bucket_covered.
  - done.
  - intros p HU%is_USE_eq. by rewrite HU.
Qed.

Lemma collected_elem_of p :
  p ∈ filter (λ p, receives (Method (h p)) 0
                   && (negb (is_USE h p) || first_named h p)) (seq 0 n)
      ++ (seq 1 8 ≫= λ m, filter (λ p, own h m p) (seq 0 n))
  ↔ enumerated h p = true ∧ (p < n)%nat.
Proof.
  rewrite elem_of_app, list_elem_of_filter, list_elem_of_bind, elem_of_seq.
  setoid_rewrite list_elem_of_filter. setoid_rewrite elem_of_seq.
  rewrite andb_True, orb_True, negb_True, !Is_true_true.
  setoid_rewrite Is_true_true. setoid_rewrite own_iff.
  unfold enumerated. destruct (is_USE h p) eqn:HU.
  - apply is_USE_eq in HU as HM. rewrite HM, receives_USE. split.
    + intros [[[_ [H|H]] Hp]|(m & [Hm _] & _)].
      * done.
      * split; [done|lia].
      * by apply methodINT_lookup_USE in Hm.
    + intros [Hf Hp]. left. split; [auto|lia].
  - assert (Hne : Method (h p) ≠ "USE").
    { intros H. apply is_USE_eq in H. congruence. }
    rewrite bool_decide_eq_true, (receives_other _ _ Hne), list_elem_of_lookup.
    split.
    + intros [[[[H|[_ [=]]] _] Hp]|(m & [Hm Hp] & _)]; (split; [eauto|lia]).
    + intros [[[|m] Hm] Hp].
      * left. split; [split; [by left|left; congruence]|lia].
      * right. exists (S m). split; [split; [done|lia]|].
        apply lookup_lt_Some in Hm. cbn in Hm. lia.
Qed.

Lemma collected_NoDup :
  NoDup (filter (λ p, receives (Method (h p)) 0
                      && (negb (is_USE h p) || first_named h p)) (seq 0 n)
         ++ (seq 1 8 ≫= λ m, filter (λ p, own h m p) (seq 0 n))).
Proof.
  apply NoDup_app. split_and!.
  - apply NoDup_filter, NoDup_seq.
  - intros p [Hp _]%list_elem_of_filter (m & [Hm _]%list_elem_of_filter & Hm')%list_elem_of_bind.
    apply elem_of_seq in Hm'. apply Is_true_true, own_iff in Hm.
    apply andb_True in Hp as [Hp _]. apply Is_true_true in Hp.
    destruct (String.eqb_spec (Method (h p)) "USE") as [HU|Hne].
    + rewrite HU in Hm. by apply methodINT_lookup_USE in Hm.
    + apply (receives_other _ _ Hne) in Hp as [Hp|[_ [=]]].
      pose proof (methodINT_lookup_inj _ _ _ Hp Hm). lia.
  - apply NoDup_bind; [|intros; apply NoDup_filter, NoDup_seq|apply NoDup_seq].
    intros m1 m2 p _ _ [H1 _]%list_elem_of_filter [H2 _]%list_elem_of_filter.
    apply Is_true_true, own_iff in H1, H2. by eapply methodINT_lookup_inj.
Qed.

Hypothesis pos_registered : ∀ p, (p < n)%nat → pos (h p) = (Z.of_nat p + 1)%Z.

Lemma filter_seq_sorted (sel : ptr → bool) a k :
  (a + k ≤ n)%nat →
  StronglySorted (le_pos h) (filter (λ p, sel p) (seq a k)).
Proof.
  revert a. induction k as [|k IH]; intros a Hle; [constructor|].
  cbn [seq]. rewrite filter_cons. case_decide; [|apply IH; lia].
  constructor; [apply IH; lia|].
  apply Forall_forall. intros q [_ Hq%elem_of_seq]%list_elem_of_filter.
  unfold le_pos. rewrite !pos_registered by lia. lia.
Qed.

(** Sorting the collected routes of a registered table lists the
    enumerated handles in registration order. *)
Lemma sort_collected_registered (routes : list ptr) :
  routes ≡ₚ filter (λ p, enumerated h p) (seq 0 n) →
  sort_Slice (less_pos h) routes = filter (λ p, enumerated h p) (seq 0 n).
Proof.
  intros Hperm. apply (StronglySorted_unique_strong (le_pos h)).
  - intros p q Hp Hq Hpq Hqp.
    rewrite sort_Slice_Permutation, Hperm in Hp.
    apply list_elem_of_filter in Hp as [_ Hp%elem_of_seq].
    apply list_elem_of_filter in Hq as [_ Hq%elem_of_seq].
    unfold le_pos in *. rewrite !pos_registered in * by lia. lia.
  - apply sort_Slice_StronglySorted.
  - by apply filter_seq_sorted.
  - by rewrite sort_Slice_Permutation.
Qed.
End Table.

(** ** Registration maintains the shape of the table *)

Lemma deref_lookup app p r : heap app !! p = Some r → deref app p = r.
Proof. intros H. unfold deref. by rewrite H. Qed.

Lemma deref_lt app p :
  (p < length (heap app))%nat → heap app !! p = Some (deref app p).
Proof.
  intros Hp. destruct (lookup_lt_is_Some_2 _ _ Hp) as [r Hr].
  by rewrite (deref_lookup _ _ _ Hr).
Qed.

Lemma filter_ext_elem_of {A} (P Q : A → Prop)
    `{!∀ x, Decision (P x), !∀ x, Decision (Q x)} (l : list A) :
  (∀ x, x ∈ l → P x ↔ Q x) → filter P l = filter Q l.
Proof.
  induction l as [|x l IH]; intros Hext; [done|].
  rewrite !filter_cons, IH by (intros y Hy; apply Hext; by right).
  apply decide_ext, Hext. by left.
Qed.

Lemma table_ok_New settings : table_ok (New settings).
Proof.
  split.
  - done.
  - intros p r H. cbn in H. by rewrite lookup_nil in H.
  - done.
  - intros m bucket H. unfold New in H. cbn [stack] in H.
    by apply lookup_replicate in H as [-> _].
Qed.

Lemma register_handle app method path handlers :
  snd (register app method path handlers) = length (heap app).
Proof. reflexivity. Qed.

Lemma register_heap app method path handlers :
  heap (fst (register app method path handlers)) =
    heap app ++ [mkRoute (routes app + 1)
                         (if String.eqb path EmptyString then "/" else path)
                         method EmptyString handlers].
Proof. reflexivity. Qed.

Lemma register_deref_old app method path handlers p :
  (p < length (heap app))%nat →
  deref (fst (register app method path handlers)) p = deref app p.
Proof.
  intros Hp. unfold deref. rewrite register_heap. by rewrite lookup_app_l.
Qed.

Lemma register_deref_new app method path handlers :
  deref (fst (register app method path handlers)) (length (heap app)) =
    mkRoute (routes app + 1) (if String.eqb path EmptyString then "/" else path)
            method EmptyString handlers.
Proof.
  apply deref_lookup. rewrite register_heap.
  rewrite lookup_app_r by lia. by rewrite Nat.sub_diag.
Qed.

Lemma table_ok_register app method path handlers :
  table_ok app → table_ok (fst (register app method path handlers)).
Proof.
  intros [Hr Hp Hl Hs]. split.
  - cbn. rewrite length_app. cbn. lia.
  - intros p r. rewrite register_heap.
    intros [H|[Hle H]]%lookup_app_Some; [by apply Hp|].
    destruct (p - length (heap app))%nat eqn:E; [|by cbn in H].
    cbn in H. injection H as <-. cbn. lia.
  - cbn. by rewrite length_imap.
  - intros m bucket' H. cbn [fst register stack] in H.
    rewrite list_lookup_imap in H.
    destruct (stack app !! m) as [bucket|] eqn:Em; [|done].
    cbn in H. injection H as <-. rewrite (Hs m bucket Em).
    rewrite register_heap, length_app. cbn [length].
    rewrite Nat.add_1_r, seq_S, filter_app. cbn [plus].
    rewrite filter_cons, filter_nil, register_deref_new. cbn [Method].
    rewrite (filter_ext_elem_of
      (λ p, receives (Method (deref (fst (register app method path handlers)) p)) m)
      (λ p, receives (Method (deref app p)) m)).
    + destruct (receives method m); [by rewrite decide_True|].
      rewrite decide_False by (by intros []). by rewrite app_nil_r.
    + intros p Hlt%elem_of_seq. rewrite register_deref_old by lia. done.
Qed.

Lemma set_Name_deref app p name q :
  deref (set_Name app p name) q =
    if decide (p = q ∧ (q < length (heap app))%nat)
    then with_Name name (deref app q) else deref app q.
Proof.
  unfold deref. cbn [set_Name heap].
  destruct (decide (p = q)) as [->|Hne].
  - rewrite list_lookup_alter_eq.
    destruct (heap app !! q) as [r|] eqn:E; cbn.
    + apply lookup_lt_Some in E as Hlt. by rewrite decide_True.
    + apply lookup_ge_None in E. rewrite decide_False by lia. done.
  - rewrite list_lookup_alter_ne by done. rewrite decide_False by tauto. done.
Qed.

Lemma set_Name_Method app p name q :
  Method (deref (set_Name app p name) q) = Method (deref app q).
Proof. rewrite set_Name_deref. by case_decide. Qed.

Lemma set_Name_pos app p name q :
  pos (deref (set_Name app p name) q) = pos (deref app q).
Proof. rewrite set_Name_deref. by case_decide. Qed.

Lemma table_ok_set_Name app p name : table_ok app → table_ok (set_Name app p name).
Proof.
  intros [Hr Hp Hl Hs]. split; cbn [set_Name heap stack routes].
  - by rewrite length_alter.
  - intros q r H.
    assert (Hq : (q < length (heap app))%nat).
    { apply lookup_lt_Some in H. by rewrite length_alter in H. }
    pose proof (deref_lt _ _ Hq) as Hd.
    replace r with (deref (set_Name app p name) q)
      by (by apply deref_lookup).
    rewrite set_Name_pos. by apply Hp.
  - done.
  - intros m bucket H. rewrite length_alter, (Hs m bucket H).
    apply list_filter_iff. intros q. by rewrite set_Name_Method.
Qed.

Lemma table_ok_step app c app' : table_ok app → step app c = Ok app' → table_ok app'.
Proof.
  intros Hok. destruct c as [args|path hs|path hs|method path hs|prefix hs|p name];
    cbn; unfold Use, Get, Head, Add, Group.
  - destruct (Use_args args EmptyString []) as [[prefix hs]|msg]; [|done].
    destruct (register app "USE" prefix hs) as [app1 p1] eqn:E.
    intros [= <-]. change app1 with (fst (app1, p1)). rewrite <- E.
    by apply table_ok_register.
  - intros [= <-]. by apply table_ok_register.
  - intros [= <-]. by apply table_ok_register.
  - intros [= <-]. by apply table_ok_register.
  - intros [= <-]. destruct hs; [done|]. by apply table_ok_register.
  - intros [= <-]. by apply table_ok_set_Name.
Qed.

Lemma table_ok_run app calls app' :
  table_ok app → run app calls = Ok app' → table_ok app'.
Proof.
  revert app. induction calls as [|c calls IH]; intros app Hok; cbn.
  - by intros [= <-].
  - destruct (step app c) as [app1|msg] eqn:E; [|done].
    apply IH. by eapply table_ok_step.
Qed.

Lemma table_ok_stack app :
  table_ok app →
  stack app =
    (λ m, filter (λ p, receives (Method (deref app p)) m)
                 (seq 0 (length (heap app)))) <$> seq 0 (length methodINT).
Proof.
  intros [_ _ Hl Hs]. apply list_eq. intros m.
  rewrite list_lookup_fmap.
  destruct (decide (m < length methodINT)%nat) as [Hm|Hm].
  - rewrite lookup_seq_lt by done. cbn.
    destruct (lookup_lt_is_Some_2 (stack app) m ltac:(lia)) as [b Hb].
    rewrite Hb. f_equal. by apply Hs.
  - rewrite lookup_seq_ge by lia. cbn. apply lookup_ge_None. lia.
Qed.

(** Registration never touches the settings: the error handler that [New]
    configured is the one that serving invokes. *)
Lemma step_Settings app c app' :
  step app c = Ok app' → app_Settings app' = app_Settings app.
Proof.
  destruct c as [args|path hs|path hs|method path hs|prefix hs|p name];
    cbn; unfold Use, Get, Head, Add, Group.
  - destruct (Use_args args EmptyString []) as [[prefix hs]|msg]; [|done].
    by intros [= <-].
  - by intros [= <-].
  - by intros [= <-].
  - by intros [= <-].
  - intros [= <-]. by destruct hs.
  - by intros [= <-].
Qed.

Lemma run_Settings app calls app' :
  run app calls = Ok app' → app_Settings app' = app_Settings app.
Proof.
  revert app. induction calls as [|c calls IH]; intros app; cbn.
  - by intros [= <-].
  - destruct (step app c) as [app1|msg] eqn:E; [|done]. intros Hrun.
    rewrite (IH _ Hrun). exact (step_Settings _ _ _ E).
Qed.

Lemma registered_ErrorHandler settings calls app :
  run (New settings) calls = Ok app →
  is_Some (ErrorHandler (app_Settings app)).
Proof. intros Hrun. rewrite (run_Settings _ _ _ Hrun). apply New_ErrorHandler. Qed.

(** ** What [Routes] returns *)

(** On any table whatever, the result is in ascending order of position
    and rearranges what the scan collected. *)
Lemma Routes_sorted_any_table app :
  StronglySorted (le_pos (deref app)) (Routes app)
  ∧ Routes app ≡ₚ scan_stack (deref app) 0 [] (stack app).
Proof.
  split; [apply sort_Slice_StronglySorted|apply sort_Slice_Permutation].
Qed.

Lemma Routes_USE_names_any_table app :
  NoDup (USE_names (deref app) (Routes app)).
Proof.
  destruct (Routes_sorted_any_table app) as [_ Hp].
  unfold USE_names. rewrite Hp.
  apply (scan_stack_USE_names (deref app)). constructor.
Qed.

(** On a table built by registration, the result lists the enumerated
    handles in registration order. *)
Lemma Routes_registered app :
  table_ok app →
  Routes app = filter (λ p, enumerated (deref app) p) (seq 0 (length (heap app))).
Proof.
  intros Hok. unfold Routes. rewrite (table_ok_stack app Hok) at 1.
  rewrite scan_stack_registered. apply sort_collected_registered.
  - intros p Hp. apply (ok_pos app Hok). by apply deref_lt.
  - apply NoDup_Permutation.
    + apply collected_NoDup.
    + apply NoDup_filter, NoDup_seq.
    + intros p. rewrite collected_elem_of, list_elem_of_filter, elem_of_seq.
      rewrite Is_true_true. split; intros [? ?]; (split; [done|lia]).
Qed.

(** [sort.Slice] is not stable and picks its algorithm by the length of
    the slice. On a registered table positions are distinct, so every
    ordered rearrangement of the collected routes is the list computed by
    [Routes]. *)
Lemma Routes_registered_any_sort app (sorted : list ptr) :
  table_ok app →
  sorted ≡ₚ scan_stack (deref app) 0 [] (stack app) →
  StronglySorted (le_pos (deref app)) sorted →
  sorted = Routes app.
Proof.
  intros Hok Hperm Hsorted.
  destruct (Routes_sorted_any_table app) as [Hs Hp].
  apply (StronglySorted_unique_strong (le_pos (deref app)));
    [|done|done|by rewrite Hperm, Hp].
  intros p q Hps Hq Hpq Hqp.
  assert (Hin : ∀ x, x ∈ Routes app → (x < length (heap app))%nat).
  { intros x. rewrite (Routes_registered app Hok), list_elem_of_filter, elem_of_seq.
    intros [_ ?]. lia. }
  assert (Hp' : p ∈ Routes app) by (by rewrite Hp, <- Hperm).
  unfold le_pos in *.
  rewrite (ok_pos app Hok p _ (deref_lt _ _ (Hin p Hp'))) in *.
  rewrite (ok_pos app Hok q _ (deref_lt _ _ (Hin q Hq))) in *. lia.
Qed.

Lemma Routes_elem_of app p :
  table_ok app →
  p ∈ Routes app ↔ enumerated (deref app) p = true ∧ (p < length (heap app))%nat.
Proof.
  intros Hok. rewrite (Routes_registered app Hok), list_elem_of_filter, elem_of_seq.
  rewrite Is_true_true. split; intros [? ?]; (split; [done|lia]).
Qed.

Lemma Routes_NoDup app : table_ok app → NoDup (Routes app).
Proof.
  intros Hok. rewrite (Routes_registered app Hok). apply NoDup_filter, NoDup_seq.
Qed.

Lemma Routes_ascending_handles app :
  table_ok app → StronglySorted lt (Routes app).
Proof.
  intros Hok. rewrite (Routes_registered app Hok).
  generalize 0. induction (length (heap app)) as [|k IH]; intros a; [constructor|].
  cbn [seq]. rewrite filter_cons. case_decide; [|apply IH].
  constructor; [apply IH|].
  apply Forall_forall. intros q [_ Hq%elem_of_seq]%list_elem_of_filter. lia.
Qed.

Lemma NoDup_all_equal {A} (l : list A) (x : A) :
  NoDup l → x ∈ l → (∀ y, y ∈ l → y = x) → l = [x].
Proof.
  intros Hnd Hx Hall. destruct l as [|a [|b l]].
  - by apply elem_of_nil in Hx.
  - f_equal. apply Hall. left.
  - exfalso. apply NoDup_cons in Hnd as [Ha _]. apply Ha.
    rewrite (Hall a) by left. rewrite <- (Hall b) at 1 by (right; left). left.
Qed.

Lemma occurrences_NoDup (p : ptr) (l : list ptr) :
  NoDup l → p ∈ l → occurrences p l = 1.
Proof.
  intros Hnd Hp. unfold occurrences.
  rewrite (NoDup_all_equal (filter (λ q, q = p) l) p); [done| | |].
  - by apply NoDup_filter.
  - by apply list_elem_of_filter.
  - by intros y [? _]%list_elem_of_filter.
Qed.

(** The USE routes of one name: [Routes] lists the first registered and no
    other. *)
Lemma Routes_USE_name app p1 :
  table_ok app →
  (p1 < length (heap app))%nat →
  Method (deref app p1) = "USE" →
  ∃ p0, (p0 ≤ p1)%nat
    ∧ Method (deref app p0) = "USE"
    ∧ Name (deref app p0) = Name (deref app p1)
    ∧ (∀ q, (q < p0)%nat → Method (deref app q) = "USE" →
            Name (deref app q) ≠ Name (deref app p1))
    ∧ filter (λ p, Method (deref app p) = "USE"
                   ∧ Name (deref app p) = Name (deref app p1)) (Routes app) = [p0]
    ∧ (∀ p2, (p0 < p2)%nat → Method (deref app p2) = "USE" →
             Name (deref app p2) = Name (deref app p1) → p2 ∉ Routes app).
Proof.
  intros Hok Hp1 HU1. set (h := deref app).
  destruct (first_named_exists h p1 (proj2 (is_USE_eq h p1) HU1))
    as (p0 & Hle & Hf & HN).
  apply first_named_true in Hf as Hf'. destruct Hf' as [HU0 Hfirst].
  apply is_USE_eq in HU0 as HM0. apply same_Name_eq in HN.
  assert (Hin0 : p0 ∈ Routes app).
  { apply Routes_elem_of; [done|]. split; [|lia].
    unfold enumerated. fold h. by rewrite HU0. }
  assert (Hother : ∀ p, Method (h p) = "USE" → Name (h p) = Name (h p1) →
                        p ∈ Routes app → p = p0).
  { intros p HUp HNp [He _]%Routes_elem_of; [|done].
    unfold enumerated in He. fold h in He.
    rewrite (proj2 (is_USE_eq h p) HUp) in He.
    apply first_named_true in He as [_ Hfp].
    destruct (lt_eq_lt_dec p p0) as [[Hlt| ->]|Hgt]; [|done|].
    - specialize (Hfirst p Hlt (proj2 (is_USE_eq h p) HUp)).
      apply not_true_iff_false in Hfirst. destruct Hfirst.
      apply same_Name_eq. congruence.
    - specialize (Hfp p0 Hgt HU0).
      apply not_true_iff_false in Hfp. destruct Hfp.
      apply same_Name_eq. congruence. }
  exists p0. split_and!; try done.
  - intros q Hq HUq HNq.
    specialize (Hfirst q Hq (proj2 (is_USE_eq h q) HUq)).
    apply not_true_iff_false in Hfirst. apply Hfirst, same_Name_eq. congruence.
  - apply NoDup_all_equal.
    + apply NoDup_filter. by apply Routes_NoDup.
    + by apply list_elem_of_filter.
    + intros p [[HUp HNp] Hp]%list_elem_of_filter. by apply Hother.
  - intros p2 Hlt HU2 HN2 Hin2. pose proof (Hother p2 HU2 HN2 Hin2). lia.
Qed.

(** A USE route whose name no other USE route carries is listed. *)
Lemma Routes_USE_distinct_name app p :
  table_ok app →
  (p < length (heap app))%nat →
  Method (deref app p) = "USE" →
  (∀ q, (q < length (heap app))%nat → q ≠ p → Method (deref app q) = "USE" →
        Name (deref app q) ≠ Name (deref app p)) →
  p ∈ Routes app.
Proof.
  intros Hok Hp HU Hdistinct.
  destruct (Routes_USE_name app p Hok Hp HU) as (p0 & Hle & HU0 & HN0 & _ & Hl & _).
  assert (p0 = p) as ->.
  { destruct (decide (p0 = p)) as [|Hne]; [done|].
    destruct (Hdistinct p0 ltac:(lia) Hne HU0 HN0). }
  assert (Hin : p ∈ filter (λ q, Method (deref app q) = "USE"
                     ∧ Name (deref app q) = Name (deref app p)) (Routes app)).
  { rewrite Hl. left. }
  by apply list_elem_of_filter in Hin as [_ ?].
Qed.

(** ** Enumeration order *)

(** C2: after any sequence of registrations, [Routes] returns the routes in
    strictly ascending order of position, which is the order of
    registration (handles are given out in registration order and the
    route behind handle [p] has position [p + 1]), whatever stacks hold
    the routes; it returns exactly the enumerated ones. *)
Theorem Routes_in_registration_order
    (settings : list Settings) (calls : list call) (app : App) :
  run (New settings) calls = Ok app →
  StronglySorted Z.lt ((λ p, pos (deref app p)) <$> Routes app)
  ∧ StronglySorted lt (Routes app)
  ∧ (∀ p, p ∈ Routes app →
          (p < length (heap app))%nat ∧ pos (deref app p) = (Z.of_nat p + 1)%Z)
  ∧ (∀ p, p ∈ Routes app ↔
          (p < length (heap app))%nat ∧ enumerated (deref app) p = true).
Proof.
  intros Hrun.
  assert (Hok : table_ok app) by (eapply table_ok_run; [apply table_ok_New|done]).
  assert (Hpos : ∀ p, p ∈ Routes app →
    (p < length (heap app))%nat ∧ pos (deref app p) = (Z.of_nat p + 1)%Z).
  { intros p [_ Hp]%Routes_elem_of; [|done]. split; [done|].
    apply (ok_pos app Hok). by apply deref_lt. }
  split_and!; [| by apply Routes_ascending_handles | done |].
  - pose proof (Routes_ascending_handles app Hok) as Hs.
    induction Hs as [|p l Hl IH Hp]; [constructor|].
    cbn [fmap list_fmap]. constructor.
    + apply IH. intros q Hq. apply Hpos. by right.
    + apply Forall_fmap, Forall_forall. intros q Hq. cbn.
      rewrite Forall_forall in Hp. specialize (Hp q Hq).
      destruct (Hpos p ltac:(left)) as [_ ->].
      destruct (Hpos q ltac:(by right)) as [_ ->]. lia.
  - intros p. rewrite (Routes_elem_of app p Hok). tauto.
Qed.

Lemma Routes_in_registration_order_witness :
  StronglySorted Z.lt ((λ p, pos (deref sample_app p)) <$> Routes sample_app)
  ∧ Routes sample_app = [0; 1; 2; 3; 4; 7]%nat.
Proof.
  split; [|vm_compute; reflexivity].
  apply (Routes_in_registration_order [] sample_calls sample_app).
  vm_compute. reflexivity.
Defined.

(** ** Deduplication of USE routes *)

(** C3: of the USE routes that carry one name, [Routes] returns exactly
    one, the first registered ([p0], with no USE route of that name before
    it); a later one ([p2]) is not returned. A USE route whose name no
    other USE route carries is returned. Handles are given out in
    registration order ([register_handle]), so [q < p] reads: [q] was
    registered before [p]. *)
Theorem Routes_deduplicates_USE_by_name
    (settings : list Settings) (calls : list call) (app : App) (p1 p2 : ptr) :
  run (New settings) calls = Ok app →
  (p1 < p2)%nat → (p2 < length (heap app))%nat →
  Method (deref app p1) = "USE" → Method (deref app p2) = "USE" →
  Name (deref app p1) = Name (deref app p2) →
  (∃ p0, (p0 ≤ p1)%nat
     ∧ Method (deref app p0) = "USE"
     ∧ Name (deref app p0) = Name (deref app p1)
     ∧ (∀ q, (q < p0)%nat → Method (deref app q) = "USE" →
             Name (deref app q) ≠ Name (deref app p1))
     ∧ filter (λ p, Method (deref app p) = "USE"
                    ∧ Name (deref app p) = Name (deref app p1)) (Routes app) = [p0])
  ∧ (p2 ∉ Routes app)
  ∧ (∀ p, (p < length (heap app))%nat → Method (deref app p) = "USE" →
          (∀ q, (q < length (heap app))%nat → q ≠ p →
                Method (deref app q) = "USE" →
                Name (deref app q) ≠ Name (deref app p)) →
          p ∈ Routes app).
Proof.
  intros Hrun Hlt Hp2 HU1 HU2 HN.
  assert (Hok : table_ok app) by (eapply table_ok_run; [apply table_ok_New|done]).
  destruct (Routes_USE_name app p1 Hok ltac:(lia) HU1)
    as (p0 & Hle & HU0 & HN0 & Hfirst & Hl & Hlater).
  split_and!.
  - exists p0. by split_and!.
  - apply Hlater; [lia|done|congruence].
  - intros p Hp HU Hd. by apply Routes_USE_distinct_name.
Qed.

Lemma Routes_deduplicates_USE_by_name_witness :
  Name (deref sample_app 2) = "auth" ∧ Name (deref sample_app 6) = "auth"
  ∧ (6%nat ∉ Routes sample_app)
  ∧ ∃ p0, filter (λ p, Method (deref sample_app p) = "USE"
                       ∧ Name (deref sample_app p) = Name (deref sample_app 2))
                 (Routes sample_app) = [p0].
Proof.
  split; [reflexivity|]. split; [reflexivity|].
  destruct (Routes_deduplicates_USE_by_name [] sample_calls sample_app 2 6)
    as ((p0 & _ & _ & _ & _ & Hl) & Hnot & _).
  - vm_compute. reflexivity.
  - lia.
  - vm_compute. lia.
  - reflexivity.
  - reflexivity.
  - reflexivity.
  - split; [exact Hnot|]. exists p0. exact Hl.
Defined.

(** C10: a USE route registered by [Use] carries the empty name until it
    is given one; of the USE routes whose name is empty, [Routes] returns
    exactly one, the first registered, and no later one. *)
Theorem Routes_collapses_unnamed_USE
    (settings : list Settings) (calls : list call) (app : App) (p1 p2 : ptr) :
  run (New settings) calls = Ok app →
  (p1 < p2)%nat → (p2 < length (heap app))%nat →
  Method (deref app p1) = "USE" → Method (deref app p2) = "USE" →
  Name (deref app p1) = EmptyString → Name (deref app p2) = EmptyString →
  (∃ p0, (p0 ≤ p1)%nat
     ∧ Method (deref app p0) = "USE"
     ∧ Name (deref app p0) = EmptyString
     ∧ (∀ q, (q < p0)%nat → Method (deref app q) = "USE" →
             Name (deref app q) ≠ EmptyString)
     ∧ filter (λ p, Method (deref app p) = "USE"
                    ∧ Name (deref app p) = EmptyString) (Routes app) = [p0])
  ∧ (p2 ∉ Routes app)
  ∧ (∀ app0 args app' p, Use app0 args = Ok (app', p) →
       Method (deref app' p) = "USE" ∧ Name (deref app' p) = EmptyString).
Proof.
  intros Hrun Hlt Hp2 HU1 HU2 HN1 HN2.
  assert (Hok : table_ok app) by (eapply table_ok_run; [apply table_ok_New|done]).
  destruct (Routes_USE_name app p1 Hok ltac:(lia) HU1)
    as (p0 & Hle & HU0 & HN0 & Hfirst & Hl & Hlater).
  rewrite HN1 in *.
  split_and!.
  - exists p0. by split_and!.
  - apply Hlater; [lia|done|done].
  - intros app0 args app' p. unfold Use.
    destruct (Use_args args EmptyString []) as [[prefix hs]|msg]; [|done].
    pose proof (register_deref_new app0 "USE" prefix hs) as Hd.
    pose proof (register_handle app0 "USE" prefix hs) as Hh.
    destruct (register app0 "USE" prefix hs) as [a q]. cbn [fst snd] in *.
    intros [= <- <-]. by rewrite Hh, Hd.
Qed.

Lemma Routes_collapses_unnamed_USE_witness :
  Name (deref sample_app 0) = EmptyString ∧ Name (deref sample_app 5) = EmptyString
  ∧ (5%nat ∉ Routes sample_app)
  ∧ ∃ p0, filter (λ p, Method (deref sample_app p) = "USE"
                       ∧ Name (deref sample_app p) = EmptyString)
                 (Routes sample_app) = [p0].
Proof.
  split; [reflexivity|]. split; [reflexivity|].
  destruct (Routes_collapses_unnamed_USE [] sample_calls sample_app 0 5)
    as ((p0 & _ & _ & _ & _ & Hl) & Hnot & _).
  - vm_compute. reflexivity.
  - lia.
  - vm_compute. lia.
  - reflexivity.
  - reflexivity.
  - reflexivity.
  - reflexivity.
  - split; [exact Hnot|]. exists p0. exact Hl.
Defined.

(** ** HEAD routes derived from GET registrations *)

(** Later calls keep the routes registered so far, and their methods. *)
Lemma step_keeps_routes app c app' :
  step app c = Ok app' →
  (length (heap app) ≤ length (heap app'))%nat
  ∧ ∀ p, (p < length (heap app))%nat →
         Method (deref app' p) = Method (deref app p).
Proof.
  assert (Hreg : ∀ method path hs,
    (length (heap app) ≤ length (heap (fst (register app method path hs))))%nat
    ∧ ∀ p, (p < length (heap app))%nat →
           Method (deref (fst (register app method path hs)) p)
           = Method (deref app p)).
  { intros method path hs. split.
    - rewrite register_heap, length_app. lia.
    - intros p Hp. by rewrite register_deref_old. }
  destruct c as [args|path hs|path hs|method path hs|prefix hs|p name];
    cbn; unfold Use, Get, Head, Add, Group.
  - destruct (Use_args args EmptyString []) as [[prefix hs]|msg]; [|done].
    specialize (Hreg "USE" prefix hs).
    destruct (register app "USE" prefix hs) as [app1 p1].
    by intros [= <-].
  - intros [= <-]. apply Hreg.
  - intros [= <-]. apply Hreg.
  - intros [= <-]. apply Hreg.
  - intros [= <-]. destruct hs; [done|]. apply Hreg.
  - intros [= <-]. split.
    + cbn. by rewrite length_alter.
    + intros q _. apply set_Name_Method.
Qed.

Lemma run_keeps_routes app calls app' :
  run app calls = Ok app' →
  (length (heap app) ≤ length (heap app'))%nat
  ∧ ∀ p, (p < length (heap app))%nat →
         Method (deref app' p) = Method (deref app p).
Proof.
  revert app. induction calls as [|c calls IH]; intros app; cbn.
  - by intros [= <-].
  - destruct (step app c) as [app1|msg] eqn:E; [|done]. intros Hrun.
    destruct (step_keeps_routes _ _ _ E) as [Hle Hm].
    destruct (IH _ Hrun) as [Hle' Hm']. split; [lia|].
    intros p Hp. rewrite Hm' by lia. by apply Hm.
Qed.

Lemma stack_elem_of app m p :
  table_ok app → (m < length methodINT)%nat →
  p ∈ default [] (stack app !! m)
  ↔ (p < length (heap app))%nat ∧ receives (Method (deref app p)) m = true.
Proof.
  intros Hok Hm. rewrite (table_ok_stack app Hok), list_lookup_fmap.
  rewrite lookup_seq_lt by done. cbn [fmap option_fmap option_map default plus].
  unfold id. rewrite list_elem_of_filter, elem_of_seq, Is_true_true.
  split; intros [? ?]; (split; [done||lia|done||lia]).
Qed.

(** The route registered by a call of [register], seen in a later table. *)
Lemma registered_route_later app method path hs after app' :
  table_ok app →
  run (fst (register app method path hs)) after = Ok app' →
  table_ok app'
  ∧ (snd (register app method path hs) < length (heap app'))%nat
  ∧ Method (deref app' (snd (register app method path hs))) = method.
Proof.
  intros Hok Hrun. split.
  { eapply table_ok_run; [|done]. by apply table_ok_register. }
  destruct (run_keeps_routes _ _ _ Hrun) as [Hle Hm].
  rewrite register_heap, length_app in Hle, Hm. cbn [length] in Hle, Hm.
  rewrite register_handle. split; [lia|].
  rewrite Hm by lia. by rewrite register_deref_new.
Qed.

(** C4: the route that [Get] registers is put on the GET stack and, to
    answer HEAD requests, on the HEAD stack; the scan of the HEAD stack
    passes over it, so [Routes] lists it once, as the GET route. The route
    that [Head] registers is on the HEAD stack and is listed. *)
Theorem Routes_suppresses_HEAD_of_GET
    (settings : list Settings) (before : list call) (app1 : App)
    (path : string) (handlers : list Handler) :
  run (New settings) before = Ok app1 →
  (∀ after app, run (fst (Get app1 path handlers)) after = Ok app →
     let p := snd (Get app1 path handlers) in
     Method (deref app p) = "GET"
     ∧ p ∈ stack_GET app ∧ p ∈ stack_HEAD app
     ∧ (∀ routes, visit (deref app) 1 routes p = routes)
     ∧ occurrences p (Routes app) = 1)
  ∧ (∀ after app, run (fst (Head app1 path handlers)) after = Ok app →
     let p := snd (Head app1 path handlers) in
     Method (deref app p) = "HEAD"
     ∧ p ∈ stack_HEAD app
     ∧ (∀ routes, visit (deref app) 1 routes p = routes ++ [p])
     ∧ occurrences p (Routes app) = 1).
Proof.
  intros Hrun1.
  assert (Hok1 : table_ok app1) by (eapply table_ok_run; [apply table_ok_New|done]).
  split; intros after app Hrun p; unfold Get, Head, Add in *;
    destruct (registered_route_later _ _ _ _ _ _ Hok1 Hrun) as (Hok & Hp & HM);
    fold p in Hp, HM.
  - split_and!.
    + done.
    + apply (stack_elem_of app 0 p Hok); [cbn; lia|]. by rewrite HM.
    + apply (stack_elem_of app 1 p Hok); [cbn; lia|]. by rewrite HM.
    + intros routes. by apply visit_skip.
    + apply occurrences_NoDup; [by apply Routes_NoDup|].
      apply Routes_elem_of; [done|]. split; [|done].
      unfold enumerated, is_USE. by rewrite HM.
  - split_and!.
    + done.
    + apply (stack_elem_of app 1 p Hok); [cbn; lia|]. by rewrite HM.
    + intros routes. rewrite visit_other by (unfold is_USE; by rewrite HM).
      by rewrite HM.
    + apply occurrences_NoDup; [by apply Routes_NoDup|].
      apply Routes_elem_of; [done|]. split; [|done].
      unfold enumerated, is_USE. by rewrite HM.
Qed.

Lemma Routes_suppresses_HEAD_of_GET_witness :
  let before := [CallUse [ArgHandler pass]] in
  let after := [CallGet "/b" [pong]] in
  let app1 := app_of (run (New []) before) in
  let app_get := app_of (run (fst (Get app1 "/a" [pong])) after) in
  let app_head := app_of (run (fst (Head app1 "/a" [pong])) after) in
  (stack_HEAD app_get = [0; 1; 2]%nat ∧ Routes app_get = [0; 1; 2]%nat
   ∧ occurrences 1 (Routes app_get) = 1%nat)
  ∧ (stack_HEAD app_head = [0; 1; 2]%nat ∧ Routes app_head = [0; 1; 2]%nat
     ∧ occurrences 1 (Routes app_head) = 1%nat).
Proof.
  cbn zeta.
  destruct (Routes_suppresses_HEAD_of_GET [] [CallUse [ArgHandler pass]]
              (app_of (run (New []) [CallUse [ArgHandler pass]])) "/a" [pong])
    as [Hget Hhead].
  { vm_compute. reflexivity. }
  split.
  - split; [vm_compute; reflexivity|]. split; [vm_compute; reflexivity|].
    apply (Hget [CallGet "/b" [pong]]). vm_compute. reflexivity.
  - split; [vm_compute; reflexivity|]. split; [vm_compute; reflexivity|].
    apply (Hhead [CallGet "/b" [pong]]). vm_compute. reflexivity.
Defined.

(** ** Dispatch *)

Section DispatcherFacts.
Variable route_match : Route → string → option (list string).

Lemma appends_run_handlers p i hs ctx : appends (run_handlers p i hs ctx).
Proof.
  revert i ctx. induction hs as [|hd hs IH]; intros i ctx; cbn.
  - apply appends_ret.
  - destruct (hd (set_cursor ctx i)) as [ctx' continue].
    apply appends_bind; [apply appends_emit|]. intros _.
    destruct (ctx_err ctx'); [apply appends_ret|].
    destruct continue; [apply IH|apply appends_ret].
Qed.

(** One handler of a chain, unfolded. *)
Lemma run_handlers_cons p i hd hs ctx :
  let out := fst (hd (set_cursor ctx i)) in
  let rest := match ctx_err out, snd (hd (set_cursor ctx i)) with
              | None, true => Some (run_handlers p (S i) hs out)
              | _, _ => None
              end in
  trace_of (run_handlers p i (hd :: hs) ctx) =
    EvHandler p i out :: from_option trace_of [] rest
  ∧ value_of (run_handlers p i (hd :: hs) ctx) =
      match rest with
      | Some m => value_of m
      | None => (out, match ctx_err out with
                      | Some _ => ChainError
                      | None => ChainStop
                      end)
      end.
Proof.
  cbn zeta. cbn [run_handlers].
  destruct (hd (set_cursor ctx i)) as [out continue]. cbn [fst snd].
  assert (Hk : ∀ a : unit, appends
    match ctx_err out with
    | Some _ => ret (out, ChainError)
    | None => if continue then run_handlers p (S i) hs out
              else ret (out, ChainStop)
    end).
  { intros _. destruct (ctx_err out); [apply appends_ret|].
    destruct continue; [apply appends_run_handlers|apply appends_ret]. }
  rewrite trace_of_bind, value_of_bind by (apply appends_emit || exact Hk).
  destruct (ctx_err out); [done|]. by destruct continue.
Qed.

Lemma appends_next app bucket ctx : appends (next route_match app bucket ctx).
Proof.
  revert ctx. induction bucket as [|p bucket IH]; intros ctx; cbn.
  - apply appends_ret.
  - destruct (route_match (deref app p) (ctx_path ctx)); [|apply IH].
    apply appends_bind; [apply appends_emit|]. intros _.
    apply appends_bind; [apply appends_run_handlers|].
    intros [ctx' []]; [apply appends_ret|apply IH|apply appends_ret].
Qed.

Lemma appends_serve app fctx : appends (serve route_match app fctx).
Proof.
  apply appends_bind; [apply appends_AcquireCtx|]. intros; apply appends_next.
Qed.

(** One route of a scan, unfolded. *)
Lemma next_skip app p bucket ctx :
  route_match (deref app p) (ctx_path ctx) = None →
  next route_match app (p :: bucket) ctx = next route_match app bucket ctx.
Proof. intros H. cbn. by rewrite H. Qed.

Lemma next_match app p bucket ctx values :
  route_match (deref app p) (ctx_path ctx) = Some values →
  let chain := run_handlers p 0 (Handlers (deref app p)) (bind_route ctx p values) in
  let rest := match snd (value_of chain) with
              | ChainNext => Some (next route_match app bucket (fst (value_of chain)))
              | _ => None
              end in
  trace_of (next route_match app (p :: bucket) ctx) =
    EvMatch p :: trace_of chain ++ from_option trace_of [] rest
  ∧ value_of (next route_match app (p :: bucket) ctx) =
      from_option value_of (fst (value_of chain)) rest.
Proof.
  intros H. cbn zeta. cbn [next]. rewrite H.
  assert (Hk : ∀ x : Ctx * chain_end, appends
    (let '(ctx', e) := x in
     match e with
     | ChainNext => next route_match app bucket ctx'
     | _ => ret ctx'
     end)).
  { intros [ctx' []]; [apply appends_ret|apply appends_next|apply appends_ret]. }
  assert (Hk' : ∀ a : unit, appends
    (bind (run_handlers p 0 (Handlers (deref app p)) (bind_route ctx p values))
       (λ x, let '(ctx', e) := x in
             match e with
             | ChainNext => next route_match app bucket ctx'
             | _ => ret ctx'
             end))).
  { intros _. apply appends_bind; [apply appends_run_handlers|exact Hk]. }
  rewrite trace_of_bind, value_of_bind by (apply appends_emit || exact Hk').
  rewrite trace_of_bind, value_of_bind by (apply appends_run_handlers || exact Hk).
  cbn [trace_of emit snd fst]. destruct (value_of _) as [ctx' []]; cbn; done.
Qed.

Lemma hook_calls_run_handlers p i hs ctx :
  hook_calls (trace_of (run_handlers p i hs ctx)) = [].
Proof.
  revert i ctx. induction hs as [|hd hs IH]; intros i ctx; [done|].
  pose proof (run_handlers_cons p i hd hs ctx) as H. cbn zeta in H.
  destruct H as [-> _]. cbn.
  destruct (ctx_err _); [done|]. destruct (snd _); [apply IH|done].
Qed.

Lemma matched_routes_run_handlers p i hs ctx :
  matched_routes (trace_of (run_handlers p i hs ctx)) = [].
Proof.
  revert i ctx. induction hs as [|hd hs IH]; intros i ctx; [done|].
  pose proof (run_handlers_cons p i hd hs ctx) as H. cbn zeta in H.
  destruct H as [-> _]. cbn.
  destruct (ctx_err _); [done|]. destruct (snd _); [apply IH|done].
Qed.

Lemma hook_calls_next app bucket ctx :
  hook_calls (trace_of (next route_match app bucket ctx)) = [].
Proof.
  revert ctx. induction bucket as [|p bucket IH]; intros ctx; [done|].
  destruct (route_match (deref app p) (ctx_path ctx)) as [values|] eqn:E.
  - pose proof (next_match app p bucket ctx values E) as H. cbn zeta in H.
    destruct H as [-> _].
    change (hook_calls (EvMatch p :: ?tr)) with (hook_calls tr).
    rewrite hook_calls_app, hook_calls_run_handlers.
    destruct (snd _); cbn; [done|apply IH|done].
  - rewrite next_skip by done. apply IH.
Qed.

Lemma hook_calls_serve app fctx :
  hook_calls (trace_of (serve route_match app fctx)) = [].
Proof.
  unfold serve. rewrite trace_of_bind;
    [|apply appends_AcquireCtx|intros; apply appends_next].
  rewrite hook_calls_app, hook_calls_next. reflexivity.
Qed.

Lemma next_no_match app bucket ctx :
  (∀ p, p ∈ bucket → route_match (deref app p) (ctx_path ctx) = None) →
  next route_match app bucket ctx = ret (set_err ctx (Some (ErrorPtr ErrNotFound))).
Proof.
  induction bucket as [|p bucket IH]; intros Hnone; cbn; [done|].
  rewrite (Hnone p) by left. apply IH. intros q Hq. apply Hnone. by right.
Qed.

(** How a chain ends: with an error in the slot exactly when it ends by
    [ChainError], provided it started with an empty slot. *)
Lemma run_handlers_end p i hs ctx :
  ctx_err ctx = None →
  match snd (value_of (run_handlers p i hs ctx)) with
  | ChainError => is_Some (ctx_err (fst (value_of (run_handlers p i hs ctx))))
  | _ => ctx_err (fst (value_of (run_handlers p i hs ctx))) = None
  end.
Proof.
  revert i ctx. induction hs as [|hd hs IH]; intros i ctx Hctx; [done|].
  pose proof (run_handlers_cons p i hd hs ctx) as H. cbn zeta in H.
  destruct H as [_ ->].
  destruct (ctx_err (hd (set_cursor ctx i)).1) as [e|] eqn:E; cbn.
  - rewrite E. eauto.
  - destruct (hd (set_cursor ctx i)).2; cbn; [by apply IH|done].
Qed.

(** A handler that returns with an error in the slot ends the chain: its
    context is the result and no later handler runs. *)
Lemma run_handlers_signal p i hs ctx q j c :
  EvHandler q j c ∈ trace_of (run_handlers p i hs ctx) →
  is_Some (ctx_err c) →
  value_of (run_handlers p i hs ctx) = (c, ChainError).
Proof.
  revert i ctx. induction hs as [|hd hs IH]; intros i ctx Hin Herr.
  { by apply elem_of_nil in Hin. }
  pose proof (run_handlers_cons p i hd hs ctx) as H. cbn zeta in H.
  destruct H as [Ht ->]. rewrite Ht in Hin. clear Ht.
  apply elem_of_cons in Hin as [[= -> -> ->]|Hin].
  - destruct Herr as [e ->]. done.
  - destruct (ctx_err (hd (set_cursor ctx i)).1); [by apply elem_of_nil in Hin|].
    destruct (hd (set_cursor ctx i)).2; [|by apply elem_of_nil in Hin].
    cbn in *. by apply IH.
Qed.

(** A chain that does not continue past its last handler ends with the
    context that its last handler returned. *)
Lemma run_handlers_last p i hs ctx :
  snd (value_of (run_handlers p i hs ctx)) ≠ ChainNext →
  ∃ j, EvHandler p j (fst (value_of (run_handlers p i hs ctx)))
       ∈ trace_of (run_handlers p i hs ctx).
Proof.
  revert i ctx. induction hs as [|hd hs IH]; intros i ctx; [done|].
  pose proof (run_handlers_cons p i hd hs ctx) as H. cbn zeta in H.
  destruct H as [-> ->].
  destruct (ctx_err (hd (set_cursor ctx i)).1); cbn.
  - intros _. exists i. left.
  - destruct (hd (set_cursor ctx i)).2; cbn.
    + intros Hne. destruct (IH _ _ Hne) as [j Hj]. exists j. by right.
    + intros _. exists i. left.
Qed.

Lemma next_signal app bucket ctx q j c :
  ctx_err ctx = None →
  EvHandler q j c ∈ trace_of (next route_match app bucket ctx) →
  is_Some (ctx_err c) →
  value_of (next route_match app bucket ctx) = c.
Proof.
  revert ctx. induction bucket as [|p bucket IH]; intros ctx Hctx Hin Herr.
  { by apply elem_of_nil in Hin. }
  destruct (route_match (deref app p) (ctx_path ctx)) as [values|] eqn:E.
  2:{ rewrite next_skip in * by done. by apply IH. }
  pose proof (next_match app p bucket ctx values E) as H. cbn zeta in H.
  destruct H as [Ht ->]. rewrite Ht in Hin. clear Ht.
  apply elem_of_cons in Hin as [[=]|Hin].
  apply elem_of_app in Hin as [Hin|Hin].
  - rewrite (run_handlers_signal _ _ _ _ _ _ _ Hin Herr). done.
  - pose proof (run_handlers_end p 0 (Handlers (deref app p))
                  (bind_route ctx p values) Hctx) as Hend.
    destruct (snd (value_of _)); cbn in *; [by apply elem_of_nil in Hin| |
      by apply elem_of_nil in Hin].
    by apply IH.
Qed.

(** An error in the slot after a scan was left by the handler that ran
    last, or is the not-found error of a scan that ran out of routes. *)
Lemma next_error_source app bucket ctx e :
  ctx_err ctx = None →
  ctx_err (value_of (next route_match app bucket ctx)) = Some e →
  e = ErrorPtr ErrNotFound
  ∨ ∃ q j, EvHandler q j (value_of (next route_match app bucket ctx))
           ∈ trace_of (next route_match app bucket ctx).
Proof.
  revert ctx. induction bucket as [|p bucket IH]; intros ctx Hctx.
  { cbn. intros [= <-]. by left. }
  destruct (route_match (deref app p) (ctx_path ctx)) as [values|] eqn:E.
  2:{ rewrite next_skip by done. by apply IH. }
  pose proof (next_match app p bucket ctx values E) as H. cbn zeta in H.
  destruct H as [-> ->].
  pose proof (run_handlers_end p 0 (Handlers (deref app p))
                (bind_route ctx p values) Hctx) as Hend.
  pose proof (run_handlers_last p 0 (Handlers (deref app p))
                (bind_route ctx p values)) as Hlast.
  destruct (snd (value_of _)) eqn:Es; cbn in *.
  - intros _. right. destruct Hlast as [j Hj]; [done|].
    exists p, j. right. rewrite elem_of_app. by left.
  - intros He. destruct (IH _ Hend He) as [?|(q & j & Hq)]; [by left|].
    right. exists q, j. right. rewrite elem_of_app. by right.
  - intros _. right. destruct Hlast as [j Hj]; [done|].
    exists p, j. right. rewrite elem_of_app. by left.
Qed.

(** The first route that the scan binds is the first of the stack whose
    matcher accepts the path. *)
Lemma next_first_match app before p0 after ctx :
  (∀ q, q ∈ before → route_match (deref app q) (ctx_path ctx) = None) →
  is_Some (route_match (deref app p0) (ctx_path ctx)) →
  head (matched_routes
          (trace_of (next route_match app (before ++ p0 :: after) ctx))) = Some p0.
Proof.
  intros Hnone [values Hmatch].
  induction before as [|q before IH]; cbn.
  - rewrite Hmatch. unfold trace_of, bind, emit. cbn.
    destruct (run_handlers p0 0 _ _ _) as [[ctx' e] tr] eqn:E.
    rewrite (appends_run_handlers _ _ _ _ [EvMatch p0]) in E.
    injection E as _ <-.
    destruct e; cbn; try done.
    by rewrite (appends_next app after ctx' _).
  - rewrite (Hnone q) by left. apply IH. intros q' Hq'. apply Hnone. by right.
Qed.

(** The routes bound during a scan are bound in the order of the stack. *)
Lemma next_matched_sublist app bucket ctx :
  matched_routes (trace_of (next route_match app bucket ctx)) `sublist_of` bucket.
Proof.
  revert ctx. induction bucket as [|p bucket IH]; intros ctx; cbn; [done|].
  destruct (route_match (deref app p) (ctx_path ctx)) as [values|];
    [|by apply sublist_cons].
  rewrite trace_of_bind; [|apply appends_emit|].
  2:{ intros _. apply appends_bind; [apply appends_run_handlers|].
      intros [ctx' []]; [apply appends_ret|apply appends_next|apply appends_ret]. }
  rewrite trace_of_bind; [|apply appends_run_handlers|].
  2:{ intros [ctx' []]; [apply appends_ret|apply appends_next|apply appends_ret]. }
  rewrite !matched_routes_app, matched_routes_run_handlers.
  cbn. apply sublist_skip.
  destruct (value_of _) as [ctx' []]; cbn; [apply sublist_nil_l|apply IH|apply sublist_nil_l].
Qed.

Lemma StronglySorted_sublist {A} (R : relation A) (l1 l2 : list A) :
  l1 `sublist_of` l2 → StronglySorted R l2 → StronglySorted R l1.
Proof.
  induction 1 as [|x l1 l2 Hsub IH|x l1 l2 Hsub IH]; intros Hs; [done| |].
  - apply StronglySorted_inv in Hs as [Hs Hall]. constructor; [by apply IH|].
    rewrite Forall_forall in *. intros y Hy. apply Hall.
    by eapply elem_of_sublist.
  - apply StronglySorted_inv in Hs as [Hs _]. by apply IH.
Qed.

(** When the handlers leave the request path alone, the routes bound
    during a scan are the accepting routes of the stack, in order, up to
    the route whose chain ended the scan. *)
Lemma run_handlers_path p i hs ctx :
  (∀ hd c, hd ∈ hs → ctx_path (fst (hd c)) = ctx_path c) →
  ctx_path (fst (value_of (run_handlers p i hs ctx))) = ctx_path ctx.
Proof.
  revert i ctx. induction hs as [|hd hs IH]; intros i ctx Hpath; [done|].
  pose proof (run_handlers_cons p i hd hs ctx) as H. cbn zeta in H.
  destruct H as [_ ->].
  assert (Hout : ctx_path (hd (set_cursor ctx i)).1 = ctx_path ctx).
  { rewrite Hpath by left. done. }
  destruct (ctx_err (hd (set_cursor ctx i)).1); [done|].
  destruct (hd (set_cursor ctx i)).2; [|done]. cbn.
  rewrite IH; [done|]. intros hd' c Hhd'. apply Hpath. by right.
Qed.

Lemma next_matched_prefix app bucket ctx :
  (∀ p hd c, p ∈ bucket → hd ∈ Handlers (deref app p) →
             ctx_path (fst (hd c)) = ctx_path c) →
  matched_routes (trace_of (next route_match app bucket ctx))
  `prefix_of`
  filter (λ p, is_Some (route_match (deref app p) (ctx_path ctx))) bucket.
Proof.
  revert ctx. induction bucket as [|p bucket IH]; intros ctx Hpath.
  { apply prefix_nil. }
  assert (Hpath' : ∀ q hd c, q ∈ bucket → hd ∈ Handlers (deref app q) →
                             ctx_path (fst (hd c)) = ctx_path c).
  { intros q hd c Hq. apply Hpath. by right. }
  rewrite filter_cons.
  destruct (route_match (deref app p) (ctx_path ctx)) as [values|] eqn:E.
  2:{ rewrite next_skip by done. rewrite decide_False by (by intros [? [=]]).
      by apply IH. }
  rewrite decide_True by eauto.
  pose proof (next_match app p bucket ctx values E) as H. cbn zeta in H.
  destruct H as [-> _].
  change (matched_routes (EvMatch p :: ?tr)) with (p :: matched_routes tr).
  rewrite matched_routes_app, matched_routes_run_handlers, app_nil_l.
  apply prefix_cons.
  pose proof (run_handlers_path p 0 (Handlers (deref app p))
                (bind_route ctx p values)) as Hp.
  destruct (snd (value_of _)); cbn; [apply prefix_nil| |apply prefix_nil].
  replace (ctx_path ctx) with
    (ctx_path (value_of (run_handlers p 0 (Handlers (deref app p))
                                      (bind_route ctx p values))).1).
  - by apply IH.
  - apply Hp. intros hd c Hhd. apply (Hpath p); [left|done].
Qed.

Lemma first_matching (P : ptr → Prop) `{!∀ p, Decision (P p)} (l : list ptr) p :
  p ∈ l → P p →
  ∃ before p0 after, l = before ++ p0 :: after
                     ∧ (∀ q, q ∈ before → ¬ P q) ∧ P p0.
Proof.
  induction l as [|x l IH]; intros Hin HP; [by apply elem_of_nil in Hin|].
  destruct (decide (P x)) as [Hx|Hx].
  - exists [], x, l. split_and!; [done| |done]. by intros q ?%elem_of_nil.
  - apply elem_of_cons in Hin as [->|Hin]; [done|].
    destruct (IH Hin HP) as (before & p0 & after & -> & Hb & H0).
    exists (x :: before), p0, after. split_and!; [done| |done].
    intros q [->|Hq]%elem_of_cons; auto.
Qed.
End DispatcherFacts.

Lemma filter_seq_ascending (P : ptr → Prop) `{!∀ p, Decision (P p)} a k :
  StronglySorted lt (filter P (seq a k)).
Proof.
  revert a. induction k as [|k IH]; intros a; [constructor|].
  cbn [seq]. rewrite filter_cons. case_decide; [|apply IH].
  constructor; [apply IH|].
  apply Forall_forall. intros q [_ Hq%elem_of_seq]%list_elem_of_filter. lia.
Qed.

Lemma index_of_lt s l m : index_of s l = Some m → (m < length l)%nat.
Proof.
  revert m. induction l as [|x l IH]; intros m; cbn; [done|].
  destruct (String.eqb s x); [intros [= <-]; lia|].
  destruct (index_of s l) as [k|]; [|done]. cbn. intros [= <-].
  specialize (IH k eq_refl). lia.
Qed.

(** The stack scanned for a method holds handles in registration order. *)
Lemma bucket_of_registered app method :
  table_ok app →
  StronglySorted lt (bucket_of app method)
  ∧ ∀ p, p ∈ bucket_of app method → (p < length (heap app))%nat.
Proof.
  intros Hok. unfold bucket_of.
  destruct (methodInt method) as [m|] eqn:Em.
  2:{ split; [constructor|]. by intros p ?%elem_of_nil. }
  apply index_of_lt in Em.
  rewrite (table_ok_stack app Hok), list_lookup_fmap, lookup_seq_lt by done.
  cbn [fmap option_fmap option_map default plus]. split.
  - apply filter_seq_ascending.
  - intros p [_ Hp%elem_of_seq]%list_elem_of_filter. lia.
Qed.

Section DispatchResults.
Variable route_match : Route → string → option (list string).

Lemma dispatch_trace app fctx :
  let ctx := value_of (serve route_match app fctx) in
  trace_of (dispatch route_match app fctx) =
    trace_of (serve route_match app fctx)
    ++ match ctx_err ctx, ErrorHandler (app_Settings app) with
       | Some err, Some _ => [EvErrorHandler ctx err]
       | _, _ => []
       end
    ++ [EvRelease].
Proof.
  cbn zeta. unfold dispatch. rewrite trace_of_bind; [|apply appends_serve|].
  - f_equal. generalize (value_of (serve route_match app fctx)). intros ctx.
    unfold call_ErrorHandler.
    destruct (ctx_err ctx) as [err|]; [|reflexivity].
    destruct (ErrorHandler (app_Settings app)); reflexivity.
  - intros ctx. apply appends_bind; [|intros; apply appends_ReleaseCtx].
    destruct (ctx_err ctx); [apply appends_call_ErrorHandler|apply appends_ret].
Qed.

Lemma serve_trace app fctx :
  trace_of (serve route_match app fctx) =
    EvAcquire
    :: trace_of (next route_match app (bucket_of app (req_method fctx))
                      (value_of (AcquireCtx app fctx))).
Proof.
  unfold serve. rewrite trace_of_bind;
    [reflexivity|apply appends_AcquireCtx|intros; apply appends_next].
Qed.

Lemma dispatch_matched_routes app fctx :
  matched_routes (trace_of (dispatch route_match app fctx)) =
    matched_routes
      (trace_of (next route_match app (bucket_of app (req_method fctx))
                      (value_of (AcquireCtx app fctx)))).
Proof.
  rewrite dispatch_trace. cbn zeta. rewrite serve_trace.
  rewrite !matched_routes_app. cbn [matched_routes omap].
  destruct (ctx_err _); [destruct (ErrorHandler _)|]; cbn; apply app_nil_r.
Qed.

(** C1, amended: of two routes on the stack of the request's method whose
    patterns both accept the path, the one registered later ([p2]) is
    never the one dispatch selects: the selected route [p0] is the
    accepting route of lowest position, so it is registered no later than
    [p1], and it is [p1] itself when no route registered before [p1]
    accepts the path.
    The routes bound while chains continue are bound in ascending
    position, and, when the handlers leave the request path alone, [p2]
    is bound only if [p1] was bound before it. *)
Theorem dispatch_first_match_wins
    (settings : list Settings) (calls : list call) (app : App)
    (fctx : RequestCtx) (p1 p2 : ptr) :
  run (New settings) calls = Ok app →
  p1 ∈ bucket_of app (req_method fctx) →
  p2 ∈ bucket_of app (req_method fctx) →
  (pos (deref app p1) < pos (deref app p2))%Z →
  is_Some (route_match (deref app p1) (req_path fctx)) →
  is_Some (route_match (deref app p2) (req_path fctx)) →
  ∃ p0,
    head (matched_routes (trace_of (dispatch route_match app fctx))) = Some p0
    ∧ p0 ∈ bucket_of app (req_method fctx)
    ∧ is_Some (route_match (deref app p0) (req_path fctx))
    ∧ (pos (deref app p0) ≤ pos (deref app p1))%Z
    ∧ p0 ≠ p2
    ∧ (∀ q, q ∈ bucket_of app (req_method fctx) →
            (pos (deref app q) < pos (deref app p0))%Z →
            route_match (deref app q) (req_path fctx) = None)
    ∧ ((∀ q, q ∈ bucket_of app (req_method fctx) →
             (pos (deref app q) < pos (deref app p1))%Z →
             route_match (deref app q) (req_path fctx) = None) →
       p0 = p1)
    ∧ StronglySorted (λ q q', (pos (deref app q) < pos (deref app q'))%Z)
        (matched_routes (trace_of (dispatch route_match app fctx)))
    ∧ ((∀ p hd c, p ∈ bucket_of app (req_method fctx) →
                  hd ∈ Handlers (deref app p) →
                  ctx_path (fst (hd c)) = ctx_path c) →
       p2 ∈ matched_routes (trace_of (dispatch route_match app fctx)) →
       p1 ∈ matched_routes (trace_of (dispatch route_match app fctx))).
Proof.
  intros Hrun Hin1 Hin2 Hpos Hm1 Hm2.
  assert (Hok : table_ok app) by (eapply table_ok_run; [apply table_ok_New|done]).
  destruct (bucket_of_registered app (req_method fctx) Hok) as [Hsorted Hbound].
  assert (Hposn : ∀ p, p ∈ bucket_of app (req_method fctx) →
                       pos (deref app p) = (Z.of_nat p + 1)%Z).
  { intros p Hp. apply (ok_pos app Hok), deref_lt, Hbound, Hp. }
  destruct (first_matching
              (λ p, is_Some (route_match (deref app p) (req_path fctx)))
              _ p1 Hin1 Hm1) as (before & p0 & after & Hsplit & Hbefore & Hm0).
  assert (Hin0 : p0 ∈ bucket_of app (req_method fctx)).
  { rewrite Hsplit, elem_of_app, elem_of_cons. auto. }
  assert (Hlow : ∀ q, q ∈ bucket_of app (req_method fctx) →
                      is_Some (route_match (deref app q) (req_path fctx)) →
                      (p0 ≤ q)%nat).
  { intros q Hq Hmq. rewrite Hsplit in Hq, Hsorted.
    apply elem_of_app in Hq as [Hq|Hq]; [by destruct (Hbefore q Hq)|].
    apply StronglySorted_app_1_r in Hsorted.
    apply elem_of_cons in Hq as [->|Hq]; [done|].
    apply StronglySorted_inv in Hsorted as [_ Hall].
    rewrite Forall_forall in Hall. specialize (Hall q Hq). lia. }
  pose proof (Hlow p1 Hin1 Hm1) as Hle1.
  pose proof (Hposn p0 Hin0) as E0. pose proof (Hposn p1 Hin1) as E1.
  pose proof (Hposn p2 Hin2) as E2.
  exists p0. split_and!; try done.
  - rewrite dispatch_matched_routes, Hsplit.
    apply next_first_match; [|done].
    intros q Hq. apply eq_None_not_Some. by apply Hbefore.
  - lia.
  - intros ->. lia.
  - intros q Hq Hlt. apply eq_None_not_Some. intros Hmq.
    pose proof (Hlow q Hq Hmq). pose proof (Hposn q Hq). lia.
  - intros Hnone. destruct (decide (p0 = p1)) as [|Hne]; [done|].
    assert (Hnot : route_match (deref app p0) (req_path fctx) = None).
    { apply Hnone; [done|]. lia. }
    rewrite Hnot in Hm0. by destruct Hm0.
  - rewrite dispatch_matched_routes.
    pose proof (next_matched_sublist route_match app
                  (bucket_of app (req_method fctx))
                  (value_of (AcquireCtx app fctx))) as Hsub.
    pose proof (StronglySorted_sublist _ _ _ Hsub Hsorted) as Hs.
    assert (Hall : ∀ q, q ∈ matched_routes (trace_of (next route_match app
                     (bucket_of app (req_method fctx))
                     (value_of (AcquireCtx app fctx)))) →
                   pos (deref app q) = (Z.of_nat q + 1)%Z).
    { intros q Hq. apply Hposn. by eapply elem_of_sublist. }
    clear Hsub. induction Hs as [|q l Hl IH Hq]; [constructor|].
    constructor.
    + apply IH. intros q' Hq'. apply Hall. by right.
    + rewrite Forall_forall in *. intros q' Hq'.
      rewrite (Hall q) by left. rewrite (Hall q') by (by right).
      specialize (Hq q' Hq'). lia.
  - intros Hpath. rewrite dispatch_matched_routes.
    destruct (next_matched_prefix route_match app
                (bucket_of app (req_method fctx))
                (value_of (AcquireCtx app fctx)) Hpath) as [later Hpre].
    change (ctx_path (value_of (AcquireCtx app fctx))) with (req_path fctx)
      in Hpre.
    intros Hb2.
    assert (Hf1 : p1 ∈ filter
      (λ p, is_Some (route_match (deref app p) (req_path fctx)))
      (bucket_of app (req_method fctx))) by (by apply list_elem_of_filter).
    assert (Hfs : StronglySorted lt (filter
      (λ p, is_Some (route_match (deref app p) (req_path fctx)))
      (bucket_of app (req_method fctx)))).
    { eapply StronglySorted_sublist; [apply sublist_filter|done]. }
    rewrite Hpre in Hf1, Hfs.
    apply elem_of_app in Hf1 as [?|Hlater]; [done|].
    pose proof (StronglySorted_app_1_elem_of _ _ _ _ _ Hfs Hb2 Hlater). lia.
Qed.

Lemma serve_value app fctx :
  value_of (serve route_match app fctx) =
    value_of (next route_match app (bucket_of app (req_method fctx))
                   (value_of (AcquireCtx app fctx))).
Proof.
  unfold serve. rewrite value_of_bind;
    [reflexivity|apply appends_AcquireCtx|intros; apply appends_next].
Qed.

Lemma dispatch_value app fctx :
  let ctx := value_of (serve route_match app fctx) in
  value_of (dispatch route_match app fctx) =
    match ctx_err ctx, ErrorHandler (app_Settings app) with
    | Some err, Some hook => hook ctx err
    | _, _ => ctx
    end.
Proof.
  cbn zeta. unfold dispatch. rewrite value_of_bind; [|apply appends_serve|].
  - generalize (value_of (serve route_match app fctx)). intros ctx.
    unfold call_ErrorHandler.
    destruct (ctx_err ctx) as [err|]; [|reflexivity].
    destruct (ErrorHandler (app_Settings app)); reflexivity.
  - intros ctx. apply appends_bind; [|intros; apply appends_ReleaseCtx].
    destruct (ctx_err ctx); [apply appends_call_ErrorHandler|apply appends_ret].
Qed.

Lemma dispatch_handler_events app fctx q j c :
  EvHandler q j c ∈ trace_of (dispatch route_match app fctx)
  ↔ EvHandler q j c
    ∈ trace_of (next route_match app (bucket_of app (req_method fctx))
                     (value_of (AcquireCtx app fctx))).
Proof.
  rewrite dispatch_trace. cbn zeta. rewrite serve_trace.
  rewrite !elem_of_app, elem_of_cons, list_elem_of_singleton. split.
  - intros [[[=]|?]|[Hin|[=]]]; [done|].
    destruct (ctx_err _); [destruct (ErrorHandler _)|];
      [apply list_elem_of_singleton in Hin; discriminate Hin
      |by apply elem_of_nil in Hin..].
  - intros ?. left. by right.
Qed.

(** C5: dispatch invokes the configured error handler exactly once, with
    the context and the error, when serving leaves an error in the error
    slot, and not at all when it leaves none; the context it returns is
    the one released. An error is in the slot when
    a handler returned with one (the chain ends there, and the handler is
    invoked with that context and error) and when no route accepts the
    path (the not-found error); an error in the slot has one of these two
    origins. The transport error hook invokes the handler exactly once. *)
Theorem error_handler_invoked_once
    (app : App) (hook : Ctx → error → Ctx) (fctx : RequestCtx) :
  ErrorHandler (app_Settings app) = Some hook →
  let ctx := value_of (serve route_match app fctx) in
  let calls := hook_calls (trace_of (dispatch route_match app fctx)) in
  calls = match ctx_err ctx with
          | Some err => [(ctx, err)]
          | None => []
          end
  ∧ length calls = match ctx_err ctx with Some _ => 1%nat | None => 0%nat end
  ∧ value_of (dispatch route_match app fctx) =
      match ctx_err ctx with Some err => hook ctx err | None => ctx end
  ∧ (∀ q j c err,
       EvHandler q j c ∈ trace_of (dispatch route_match app fctx) →
       ctx_err c = Some err → calls = [(c, err)])
  ∧ ((∀ p, p ∈ bucket_of app (req_method fctx) →
           route_match (deref app p) (req_path fctx) = None) →
     ∃ c, calls = [(c, ErrorPtr ErrNotFound)])
  ∧ (∀ err, ctx_err ctx = Some err →
       err = ErrorPtr ErrNotFound
       ∨ ∃ q j, EvHandler q j ctx ∈ trace_of (dispatch route_match app fctx))
  ∧ (∀ err, ∃ ctx', hook_calls (trace_of (server_ErrorHandler app fctx err))
                    = [(ctx', ErrorPtr (transport_error err))]
                    ∧ ctx_err ctx' = Some (ErrorPtr (transport_error err))).
Proof.
  intros Hhook ctx calls.
  assert (Hcalls : calls =
    match ctx_err ctx with Some err => [(ctx, err)] | None => [] end).
  { subst calls. rewrite dispatch_trace. cbn zeta. fold ctx.
    rewrite !hook_calls_app, hook_calls_serve, Hhook.
    by destruct (ctx_err ctx). }
  split_and!.
  - exact Hcalls.
  - rewrite Hcalls. by destruct (ctx_err ctx).
  - rewrite dispatch_value. cbn zeta. fold ctx. by rewrite Hhook.
  - intros q j c err Hin Herr. apply dispatch_handler_events in Hin.
    assert (Hc : ctx = c).
    { subst ctx. rewrite serve_value.
      apply (next_signal route_match app _ (value_of (AcquireCtx app fctx))
               q j c eq_refl Hin). by rewrite Herr. }
    rewrite Hcalls, Hc, Herr. done.
  - intros Hnone. rewrite Hcalls. subst ctx. rewrite serve_value.
    rewrite next_no_match by exact Hnone. cbn. eauto.
  - intros err Herr. subst ctx. rewrite serve_value in Herr |- *.
    destruct (next_error_source route_match app _
                (value_of (AcquireCtx app fctx)) err eq_refl Herr)
      as [?|(q & j & Hq)];
      [by left|].
    right. exists q, j. by apply dispatch_handler_events.
  - intros err. eexists.
    unfold server_ErrorHandler, call_ErrorHandler, trace_of. rewrite Hhook.
    cbn. split; reflexivity.
Qed.
End DispatchResults.

Lemma dispatch_first_match_wins_witness :
  let fctx := mkRequestCtx "GET" "/users/me" in
  Path (deref router_app 0) = "/users/*" ∧ Path (deref router_app 1) = "/users/me"
  ∧ head (matched_routes (trace_of (dispatch sample_match router_app fctx))) = Some 0%nat
  ∧ ∃ p0, head (matched_routes (trace_of (dispatch sample_match router_app fctx)))
          = Some p0 ∧ p0 ≠ 1%nat.
Proof.
  cbn zeta. split; [reflexivity|]. split; [reflexivity|].
  split; [vm_compute; reflexivity|].
  destruct (dispatch_first_match_wins sample_match [] router_calls router_app
              (mkRequestCtx "GET" "/users/me") 0 1)
    as (p0 & Hhead & _ & _ & _ & Hne & _).
  - vm_compute. reflexivity.
  - vm_compute. left.
  - vm_compute. right. left.
  - vm_compute. reflexivity.
  - vm_compute. eexists. reflexivity.
  - vm_compute. eexists. reflexivity.
  - exists p0. split; [exact Hhead|exact Hne].
Defined.

(** C1 as stated fails: the selected route need not be the earlier route
    of a pair; with a third accepting route registered before both, that
    one is selected. *)
Lemma dispatch_selects_earlier_of_pair_counterexample :
  ¬ ∀ (route_match : Route → string → option (list string))
      (settings : list Settings) (calls : list call) (app : App)
      (fctx : RequestCtx) (p1 p2 : ptr),
      run (New settings) calls = Ok app →
      p1 ∈ bucket_of app (req_method fctx) →
      p2 ∈ bucket_of app (req_method fctx) →
      (pos (deref app p1) < pos (deref app p2))%Z →
      is_Some (route_match (deref app p1) (req_path fctx)) →
      is_Some (route_match (deref app p2) (req_path fctx)) →
      head (matched_routes (trace_of (dispatch route_match app fctx))) = Some p1.
Proof.
  intros Hclaim.
  specialize (Hclaim sample_match [] overlap_calls overlap_app
                (mkRequestCtx "GET" "/users/me") 1%nat 2%nat).
  assert (Hsel : head (matched_routes (trace_of
            (dispatch sample_match overlap_app (mkRequestCtx "GET" "/users/me"))))
          = Some 0%nat) by (vm_compute; reflexivity).
  rewrite Hsel in Hclaim.
  assert (Some 0%nat = Some 1%nat) as [=]. apply Hclaim.
  - vm_compute. reflexivity.
  - vm_compute. right. left.
  - vm_compute. right. right. left.
  - vm_compute. reflexivity.
  - vm_compute. eexists. reflexivity.
  - vm_compute. eexists. reflexivity.
Qed.

Lemma error_handler_invoked_once_witness :
  snd <$> hook_calls (trace_of
    (dispatch sample_match router_app (mkRequestCtx "GET" "/tea")))
  = [ErrorPtr (mkError 418 "teapot")]
  ∧ snd <$> hook_calls (trace_of
      (dispatch sample_match router_app (mkRequestCtx "GET" "/missing")))
    = [ErrorPtr ErrNotFound]
  ∧ length (hook_calls (trace_of
      (dispatch sample_match router_app (mkRequestCtx "GET" "/users/me")))) = 0%nat.
Proof.
  assert (Hhook : ErrorHandler (app_Settings router_app) = Some defaultErrorHandler)
    by (vm_compute; reflexivity).
  split_and!.
  - destruct (error_handler_invoked_once sample_match router_app
                defaultErrorHandler (mkRequestCtx "GET" "/tea") Hhook)
      as (Hcalls & _).
    etrans; [exact (f_equal (fmap snd) Hcalls)|]. vm_compute. reflexivity.
  - destruct (error_handler_invoked_once sample_match router_app
                defaultErrorHandler (mkRequestCtx "GET" "/missing") Hhook)
      as (Hcalls & _).
    etrans; [exact (f_equal (fmap snd) Hcalls)|]. vm_compute. reflexivity.
  - destruct (error_handler_invoked_once sample_match router_app
                defaultErrorHandler (mkRequestCtx "GET" "/users/me") Hhook)
      as (_ & Hlen & _).
    etrans; [exact Hlen|]. vm_compute. reflexivity.
Defined.

(** ** The scenarios of the specification, run on the samples *)

(** A middleware on a prefix runs before the route it guards, and the
    route answers. *)
Example scenario_middleware_then_route :
  let m := dispatch sample_match router_app (mkRequestCtx "GET" "/api/ping") in
  matched_routes (trace_of m) = [2; 3]%nat
  ∧ resp_body (value_of m) = "pong"
  ∧ hook_calls (trace_of m) = [].
Proof. vm_compute. repeat split; reflexivity. Qed.

(** No route registered: the default error handler answers not found. *)
Example scenario_no_routes :
  let m := dispatch sample_match (New []) (mkRequestCtx "GET" "/any") in
  snd <$> hook_calls (trace_of m) = [ErrorPtr ErrNotFound]
  ∧ resp_status (value_of m) = 404%Z
  ∧ resp_body (value_of m) = "Not Found"
  ∧ resp_headers (value_of m) !! "Content-Type" = Some "text/plain; charset=utf-8".
Proof. vm_compute. repeat split; reflexivity. Qed.

(** A handler signals an error with code 418: the error handler receives
    that code and message, and the default one answers with them. *)
Example scenario_handler_error :
  let m := dispatch sample_match router_app (mkRequestCtx "GET" "/tea") in
  snd <$> hook_calls (trace_of m) = [ErrorPtr (mkError 418 "teapot")]
  ∧ resp_status (value_of m) = 418%Z
  ∧ resp_body (value_of m) = "teapot".
Proof. vm_compute. repeat split; reflexivity. Qed.

(** * Further properties of the code *)

(** ** The arguments of [Use] and [Group] *)

Lemma Use_args_valid args prefix handlers :
  (∀ t, ArgOther t ∉ args) →
  Use_args args prefix handlers =
    Ok (default prefix (last (arg_strings args)), handlers ++ arg_handlers args).
Proof.
  revert prefix handlers.
  induction args as [|a args IH]; intros prefix handlers Hvalid.
  - cbn. by rewrite app_nil_r.
  - assert (Hrest : ∀ t, ArgOther t ∉ args).
    { intros t Ht. apply (Hvalid t). by apply elem_of_cons; right. }
    destruct a as [s|hd|t].
    + cbn. rewrite (IH s handlers Hrest). unfold arg_strings.
      rewrite last_cons. by destruct (last _).
    + cbn. rewrite (IH prefix (handlers ++ [hd]) Hrest).
      by rewrite <- app_assoc.
    + destruct (Hvalid t). by apply elem_of_cons; left.
Qed.

Lemma Use_args_first_invalid before t after prefix handlers :
  (∀ t', ArgOther t' ∉ before) →
  Use_args (before ++ ArgOther t :: after) prefix handlers =
    Fatal ("Use: Invalid Handler " ++ t).
Proof.
  revert prefix handlers.
  induction before as [|a before IH]; intros prefix handlers Hvalid; [done|].
  assert (Hrest : ∀ t', ArgOther t' ∉ before).
  { intros t' Ht. apply (Hvalid t'). by apply elem_of_cons; right. }
  destruct a as [s|hd|t'].
  - cbn. by apply IH.
  - cbn. by apply IH.
  - destruct (Hvalid t'). by apply elem_of_cons; left.
Qed.

(** X1: [Use] takes the last of its string arguments as the prefix (the
    empty string when there is none) and the handler arguments in the
    order given, wherever the strings stand among them. *)
Theorem Use_prefix_is_last_string (app : App) (args : list arg) :
  (∀ t, ArgOther t ∉ args) →
  Use app args =
    Ok (register app "USE" (default EmptyString (last (arg_strings args)))
                 (arg_handlers args)).
Proof.
  intros Hvalid. unfold Use. by rewrite (Use_args_valid _ _ _ Hvalid).
Qed.

Lemma Use_prefix_is_last_string_witness :
  Use (New []) [ArgString "/a"; ArgHandler pass; ArgString "/b"; ArgHandler pong] =
    Ok (register (New []) "USE" "/b" [pass; pong]).
Proof.
  apply (Use_prefix_is_last_string (New [])
           [ArgString "/a"; ArgHandler pass; ArgString "/b"; ArgHandler pong]).
  intros t Ht. repeat (apply elem_of_cons in Ht as [Ht|Ht]; [discriminate Ht|]).
  by apply elem_of_nil in Ht.
Defined.

(** X2: the fatal message of [Use] names the type of the first argument
    that is neither a string nor a handler; the arguments before it are
    accepted, those after it are never looked at, and nothing is
    registered. *)
Theorem Use_reports_first_invalid (app : App) (before after : list arg) (t : string) :
  (∀ t', ArgOther t' ∉ before) →
  Use app (before ++ ArgOther t :: after) = Fatal ("Use: Invalid Handler " ++ t).
Proof.
  intros Hvalid. unfold Use. by rewrite (Use_args_first_invalid _ _ _ _ _ Hvalid).
Qed.

Lemma Use_reports_first_invalid_witness :
  Use (New []) ([ArgString "/a"; ArgHandler pass]
                ++ ArgOther "int" :: [ArgOther "bool"; ArgHandler pong])
  = Fatal "Use: Invalid Handler int".
Proof.
  apply (Use_reports_first_invalid (New []) [ArgString "/a"; ArgHandler pass]
           [ArgOther "bool"; ArgHandler pong] "int").
  intros t Ht. repeat (apply elem_of_cons in Ht as [Ht|Ht]; [discriminate Ht|]).
  by apply elem_of_nil in Ht.
Defined.

Lemma arg_strings_handlers (handlers : list (Ctx → Ctx * bool)) :
  arg_strings (ArgHandler <$> handlers) = []
  ∧ arg_handlers (ArgHandler <$> handlers) = handlers.
Proof.
  induction handlers as [|hd handlers [IH1 IH2]]; [done|].
  split; cbn; [exact IH1|]. f_equal. exact IH2.
Qed.

(** X3: [Group] with handlers registers what [Use] registers for the
    prefix followed by the handlers, and [Group] without handlers registers
    nothing. *)
Theorem Group_registers_like_Use (app : App) (prefix : string)
    (handlers : list Handler) :
  handlers ≠ [] →
  Use app (ArgString prefix :: (ArgHandler <$> handlers))
    = Ok (Group app prefix handlers, length (heap app))
  ∧ Group app prefix [] = app.
Proof.
  intros Hne. split; [|reflexivity].
  unfold Use. rewrite Use_args_valid.
  - destruct (arg_strings_handlers handlers) as [Hs Hh].
    assert (H1 : arg_strings (ArgString prefix :: (ArgHandler <$> handlers))
                 = prefix :: arg_strings (ArgHandler <$> handlers)) by reflexivity.
    assert (H2 : arg_handlers (ArgString prefix :: (ArgHandler <$> handlers))
                 = arg_handlers (ArgHandler <$> handlers)) by reflexivity.
    rewrite H1, H2, Hs, Hh. rewrite app_nil_l. cbn [last default].
    destruct handlers as [|hd handlers]; [done|].
    unfold Group. by rewrite (surjective_pairing (register _ _ _ _)), register_handle.
  - intros t Ht. apply elem_of_cons in Ht as [Ht|Ht]; [discriminate Ht|].
    apply list_elem_of_fmap in Ht as (hd & Hhd & _). discriminate Hhd.
Qed.

Lemma Group_registers_like_Use_witness :
  Use (New []) (ArgString "/api" :: (ArgHandler <$> [pass; pong]))
    = Ok (Group (New []) "/api" [pass; pong], 0%nat)
  ∧ Group (New []) "/api" [] = New [].
Proof. apply (Group_registers_like_Use (New []) "/api" [pass; pong]). discriminate. Defined.

(** ** [New] *)

Lemma limit_default (x d : Z) :
  (0 < d)%Z →
  (0 < (if (x <=? 0)%Z then d else x))%Z
  ∧ (if (x <=? 0)%Z then d else x) = if decide (0 < x)%Z then x else d.
Proof. intros Hd. destruct (Z.leb_spec x 0); case_decide; lia. Qed.

(** X4: whatever settings are passed to [New], the application has
    positive limits, a non-empty compressed-file suffix and an error
    handler; a limit that was given positive is kept, any other is replaced
    by its default. *)
Theorem New_settings_in_range (settings : list Settings) :
  let s := default zero_Settings (head settings) in
  let s' := app_Settings (New settings) in
  ((0 < BodyLimit s')%Z
   ∧ BodyLimit s' = if decide (0 < BodyLimit s)%Z then BodyLimit s else 4194304%Z)
  ∧ ((0 < Concurrency s')%Z
     ∧ Concurrency s' = if decide (0 < Concurrency s)%Z then Concurrency s else 262144%Z)
  ∧ ((0 < ReadBufferSize s')%Z
     ∧ ReadBufferSize s' =
         if decide (0 < ReadBufferSize s)%Z then ReadBufferSize s else 4096%Z)
  ∧ ((0 < WriteBufferSize s')%Z
     ∧ WriteBufferSize s' =
         if decide (0 < WriteBufferSize s)%Z then WriteBufferSize s else 4096%Z)
  ∧ (CompressedFileSuffix s' ≠ EmptyString
     ∧ CompressedFileSuffix s' =
         if decide (CompressedFileSuffix s = EmptyString) then ".fiber.gz"
         else CompressedFileSuffix s)
  ∧ ErrorHandler s' = Some (default defaultErrorHandler (ErrorHandler s)).
Proof.
  destruct settings as [|s rest];
    [|change (default zero_Settings (head (s :: rest))) with s];
    cbn zeta; unfold New; cbn [app_Settings BodyLimit Concurrency ReadBufferSize
                     WriteBufferSize CompressedFileSuffix ErrorHandler].
  - vm_compute. repeat split; discriminate.
  - split; [apply limit_default; reflexivity|].
    split; [apply limit_default; reflexivity|].
    split; [apply limit_default; reflexivity|].
    split; [apply limit_default; reflexivity|].
    split.
    + destruct (String.eqb_spec (CompressedFileSuffix s) EmptyString) as [->|Hne].
      * split; [discriminate|]. by rewrite decide_True.
      * split; [exact Hne|]. by rewrite decide_False.
    + by destruct (ErrorHandler s).
Qed.

(** X5: the settings that [New] leaves are a fixed point of [New]: an
    application made from the settings of an application made by [New] is
    that application. *)
Theorem New_settings_fixed_point (settings : list Settings) :
  New [app_Settings (New settings)] = New settings.
Proof.
  assert (Hnum : ∀ x d : Z, (0 < d)%Z →
            (if ((if (x <=? 0)%Z then d else x) <=? 0)%Z then d
             else (if (x <=? 0)%Z then d else x))
            = (if (x <=? 0)%Z then d else x)).
  { intros x d Hd. destruct (Z.leb_spec x 0) as [Hx|Hx].
    - destruct (Z.leb_spec d 0); [lia|done].
    - destruct (Z.leb_spec x 0); [lia|done]. }
  set (s := match settings with [] => zero_Settings | s :: _ => s end).
  assert (HN : New settings = New [s]) by (by destruct settings).
  rewrite HN. clearbody s. clear HN. unfold New.
  cbn [app_Settings BodyLimit Concurrency ReadBufferSize
       WriteBufferSize CompressedFileSuffix ErrorHandler].
  rewrite !Hnum by reflexivity.
  f_equal. f_equal.
  - by destruct (ErrorHandler s).
  - destruct (String.eqb_spec (CompressedFileSuffix s) EmptyString) as [Heq|Hne].
    + reflexivity.
    + destruct (String.eqb_spec (CompressedFileSuffix s) EmptyString); done.
Qed.

(** ** Structured errors and the default error handler *)

(** X6: the default error handler answers an error made by [NewError]
    with the code given, whatever messages are given; when a message is
    given, the error carries the first one, which becomes the body, and
    further messages are ignored. *)
Theorem defaultErrorHandler_NewError
    (ctx : Ctx) (code : Z) (m : string) (rest : list string) :
  (∀ message,
     resp_status (defaultErrorHandler ctx (ErrorPtr (NewError code message))) = code)
  ∧ let err := ErrorPtr (NewError code (m :: rest)) in
    let ctx' := defaultErrorHandler ctx err in
    NewError code (m :: rest) = mkError code m
    ∧ error_string err = m
    ∧ resp_body ctx' = m
    ∧ defaultErrorHandler ctx (ErrorPtr (NewError code [m])) = ctx'.
Proof. split; [by intros []|done]. Qed.

(** ** [Routes] on an arbitrary table *)

Lemma occurrences_app (p : ptr) (l1 l2 : list ptr) :
  occurrences p (l1 ++ l2) = (occurrences p l1 + occurrences p l2)%nat.
Proof. unfold occurrences. by rewrite filter_app, length_app. Qed.

Lemma occurrences_Permutation (p : ptr) (l1 l2 : list ptr) :
  l1 ≡ₚ l2 → occurrences p l1 = occurrences p l2.
Proof. unfold occurrences. by intros ->. Qed.

Section ScanAnyTable.
Variable h : ptr → Route.

(** The four ways an entry is treated by the body of the loop. *)
Lemma visit_cases m routes q :
  ((m = 1%nat ∧ Method (h q) = MethodGet)
   ∧ visit h m routes q = routes
   ∧ filter (λ p, ¬ (m = 1%nat ∧ Method (h p) = MethodGet)) [q] = [])
  ∨ (filter (λ p, ¬ (m = 1%nat ∧ Method (h p) = MethodGet)) [q] = [q]
     ∧ ((is_USE h q = true
         ∧ (∃ r, r ∈ routes ∧ is_USE h r = true ∧ same_Name h r q = true)
         ∧ visit h m routes q = routes)
        ∨ (is_USE h q = true
           ∧ (∀ r, r ∈ routes → ¬ (is_USE h r = true ∧ same_Name h r q = true))
           ∧ visit h m routes q = routes ++ [q])
        ∨ (is_USE h q = false ∧ visit h m routes q = routes ++ [q]))).
Proof.
  rewrite filter_cons, filter_nil.
  destruct (decide (m = 1%nat ∧ Method (h q) = MethodGet)) as [[-> HG]|Hkeep].
  - left. split; [done|]. split; [by apply visit_skip|].
    rewrite decide_False; [done|]. intros Hn. by apply Hn.
  - right. rewrite decide_True by done. split; [done|].
    assert (Hskip : (m =? 1)%nat && String.eqb (Method (h q)) MethodGet = false).
    { apply not_true_is_false. intros Ht. apply andb_true_iff in Ht as [Hm HG].
      apply Hkeep. split; [by apply Nat.eqb_eq|by apply String.eqb_eq]. }
    destruct (is_USE h q) eqn:HU.
    + rewrite (visit_USE h m routes q HU).
      destruct (duplicate h routes q) eqn:Hd.
      * left. split; [done|]. split; [by apply duplicate_true|done].
      * right; left. split; [done|]. split; [|done].
        intros r Hr [HrU Hrn].
        assert (duplicate h routes q = true) by (apply duplicate_true; eauto).
        congruence.
    + right; right. split; [done|].
      rewrite (visit_other h m routes q HU). by rewrite Hskip.
Qed.

(** Induction over the scan: a relation between the routes collected and
    the entries scanned that the body of the loop keeps is kept by the
    loops. *)
Lemma scan_bucket_rel (I : list ptr → list ptr → Prop) m :
  (∀ routes done q,
      I routes done →
      I (visit h m routes q)
        (done ++ filter (λ p, ¬ (m = 1%nat ∧ Method (h p) = MethodGet)) [q])) →
  ∀ bucket routes done,
    I routes done →
    I (scan_bucket h m routes bucket)
      (done ++ filter (λ p, ¬ (m = 1%nat ∧ Method (h p) = MethodGet)) bucket).
Proof.
  intros Hstep bucket.
  induction bucket as [|q bucket IH]; intros routes done HI.
  - rewrite filter_nil, app_nil_r. exact HI.
  - change (q :: bucket) with ([q] ++ bucket). rewrite filter_app, app_assoc.
    change (scan_bucket h m routes ([q] ++ bucket))
      with (scan_bucket h m (visit h m routes q) bucket).
    apply IH, Hstep, HI.
Qed.

Lemma scan_stack_rel (I : list ptr → list ptr → Prop) :
  (∀ m routes done q,
      I routes done →
      I (visit h m routes q)
        (done ++ filter (λ p, ¬ (m = 1%nat ∧ Method (h p) = MethodGet)) [q])) →
  ∀ stack m routes done,
    I routes done →
    I (scan_stack h m routes stack) (done ++ scanned_from h m stack).
Proof.
  intros Hstep stack.
  induction stack as [|bucket stack IH]; intros m routes done HI.
  - cbn. rewrite app_nil_r. exact HI.
  - cbn [scan_stack scanned_from]. rewrite app_assoc.
    apply IH, scan_bucket_rel; [apply Hstep|exact HI].
Qed.

(** Every route collected was scanned. *)
Lemma scan_stack_sound stack p :
  p ∈ scan_stack h 0 [] stack → p ∈ scanned h stack.
Proof.
  intros Hp.
  apply (scan_stack_rel (λ routes done, ∀ p, p ∈ routes → p ∈ done))
    with (stack := stack) (m := 0%nat) (routes := []) (done := []); [| |exact Hp].
  - clear. intros m routes done q HI p.
    destruct (visit_cases m routes q)
      as [(_ & -> & ->)|(-> & [(_ & _ & ->)|[(_ & _ & ->)|(_ & ->)]])];
      intros Hp; rewrite ?app_nil_r; try (apply elem_of_app; left; by apply HI).
    + by apply HI.
    + apply elem_of_app. apply elem_of_app in Hp as [Hp|Hp]; [left; by apply HI|by right].
    + apply elem_of_app. apply elem_of_app in Hp as [Hp|Hp]; [left; by apply HI|by right].
  - intros q Hq. by apply elem_of_nil in Hq.
Qed.

(** A route that is not a USE route is collected as often as scanned. *)
Lemma scan_stack_count stack p :
  is_USE h p = false →
  occurrences p (scan_stack h 0 [] stack) = occurrences p (scanned h stack).
Proof.
  intros HU.
  apply (scan_stack_rel (λ routes done, occurrences p routes = occurrences p done))
    with (stack := stack) (m := 0%nat) (routes := []) (done := []); [|done].
  intros m routes done q HI.
  destruct (visit_cases m routes q)
    as [(_ & -> & ->)|(-> & [(HqU & _ & ->)|[(_ & _ & ->)|(_ & ->)]])];
    rewrite ?app_nil_r, ?occurrences_app; try lia.
  assert (Hq : occurrences p [q] = 0%nat).
  { unfold occurrences. rewrite filter_cons, decide_False by congruence. done. }
  lia.
Qed.

(** The USE routes collected: each stands in the scan before every USE
    route of its name, and every USE route scanned has a route of its name
    collected. *)
Lemma scan_stack_USE stack :
  (∀ p, p ∈ scan_stack h 0 [] stack → is_USE h p = true →
        first_of_name h (scanned h stack) p)
  ∧ (∀ q, q ∈ scanned h stack → is_USE h q = true →
          ∃ r, r ∈ scan_stack h 0 [] stack ∧ is_USE h r = true
               ∧ same_Name h r q = true).
Proof.
  apply (scan_stack_rel (λ routes done,
           (∀ p, p ∈ routes → is_USE h p = true → first_of_name h done p)
           ∧ (∀ q, q ∈ done → is_USE h q = true →
                   ∃ r, r ∈ routes ∧ is_USE h r = true ∧ same_Name h r q = true)))
    with (stack := stack) (m := 0%nat) (routes := []) (done := []).
  - clear. intros m routes done q [Hfirst Hcov].
    assert (Hext : ∀ p more, first_of_name h done p → first_of_name h (done ++ more) p).
    { intros p more (l1 & l2 & -> & Hl1). exists l1, (l2 ++ more).
      split; [by rewrite <- app_assoc|exact Hl1]. }
    destruct (visit_cases m routes q)
      as [(_ & -> & ->)|(-> & [(HqU & Hdup & ->)|[(HqU & Hnew & ->)|(HqU & ->)]])].
    + rewrite app_nil_r. by split.
    + split.
      * intros p Hp HpU. by apply Hext, Hfirst.
      * intros q' Hq' Hq'U. apply elem_of_app in Hq' as [Hq'|Hq'].
        -- by apply Hcov.
        -- apply list_elem_of_singleton in Hq' as ->. exact Hdup.
    + split.
      * intros p Hp HpU. apply elem_of_app in Hp as [Hp|Hp].
        -- by apply Hext, Hfirst.
        -- apply list_elem_of_singleton in Hp as ->.
           exists done, []. split; [done|].
           intros q' Hq' [Hq'U Hq'n].
           destruct (Hcov q' Hq' Hq'U) as (r & Hr & HrU & Hrn).
           apply (Hnew r Hr). split; [done|].
           apply same_Name_eq. apply same_Name_eq in Hrn, Hq'n. congruence.
      * intros q' Hq' Hq'U. apply elem_of_app in Hq' as [Hq'|Hq'].
        -- destruct (Hcov q' Hq' Hq'U) as (r & Hr & HrU & Hrn).
           exists r. split; [apply elem_of_app; by left|done].
        -- apply list_elem_of_singleton in Hq' as ->.
           exists q. split; [apply elem_of_app; right; left|].
           split; [done|by apply same_Name_eq].
    + split.
      * intros p Hp HpU. apply elem_of_app in Hp as [Hp|Hp].
        -- by apply Hext, Hfirst.
        -- apply list_elem_of_singleton in Hp as ->. congruence.
      * intros q' Hq' Hq'U. apply elem_of_app in Hq' as [Hq'|Hq'].
        -- destruct (Hcov q' Hq' Hq'U) as (r & Hr & HrU & Hrn).
           exists r. split; [apply elem_of_app; by left|done].
        -- apply list_elem_of_singleton in Hq' as ->. congruence.
  - split; intros q Hq; by apply elem_of_nil in Hq.
Qed.

(** A USE route is never passed over: the USE routes scanned are those
    of the stacks. *)
Lemma scanned_from_USE m stack p :
  is_USE h p = true → p ∈ scanned_from h m stack ↔ p ∈ mjoin stack.
Proof.
  intros HU. revert m.
  induction stack as [|bucket stack IH]; intros m; [done|].
  change (mjoin (bucket :: stack)) with (bucket ++ mjoin stack).
  cbn [scanned_from]. rewrite !elem_of_app, IH, list_elem_of_filter.
  assert (Hkeep : ¬ (m = 1%nat ∧ Method (h p) = MethodGet)).
  { intros [_ HG]. apply is_USE_eq in HU. rewrite HU in HG. discriminate HG. }
  tauto.
Qed.

Lemma elem_of_USE_names l name :
  name ∈ USE_names h l ↔ ∃ p, p ∈ l ∧ is_USE h p = true ∧ Name (h p) = name.
Proof.
  unfold USE_names. rewrite list_elem_of_fmap. split.
  - intros (p & -> & Hp). apply list_elem_of_filter in Hp as [HU Hp].
    exists p. split; [done|]. split; [by apply Is_true_true|done].
  - intros (p & Hp & HU & <-). exists p. split; [done|].
    apply list_elem_of_filter. split; [by apply Is_true_true|done].
Qed.
End ScanAnyTable.

Lemma Routes_Permutation_scan app :
  Routes app ≡ₚ scan_stack (deref app) 0 [] (stack app).
Proof. apply Routes_sorted_any_table. Qed.

(** X7: on any table, every route that [Routes] returns is an entry of
    a stack that the scan does not pass over: the enumeration invents no
    route, and a GET route that stands on the stack of HEAD only is never
    returned. *)
Theorem Routes_returns_scanned_entries (app : App) (p : ptr) :
  p ∈ Routes app → p ∈ scanned (deref app) (stack app).
Proof.
  intros Hp. apply scan_stack_sound. by rewrite <- (Routes_Permutation_scan app).
Qed.

Lemma Routes_returns_scanned_entries_witness :
  4%nat ∈ scanned (deref odd_app) (stack odd_app).
Proof.
  apply (Routes_returns_scanned_entries odd_app 4).
  assert (H : Routes odd_app = [4; 4; 3; 1; 1; 0]%nat) by (vm_compute; reflexivity).
  rewrite H. left.
Defined.

(** X8: on any table, a route that is not a USE route is returned by
    [Routes] once for each of its entries on the stacks, the entries of GET
    routes on the stack of HEAD left out; only USE routes are ever
    dropped as duplicates. *)
Theorem Routes_keeps_non_USE_entries (app : App) (p : ptr) :
  Method (deref app p) ≠ "USE" →
  occurrences p (Routes app) = occurrences p (scanned (deref app) (stack app)).
Proof.
  intros HU. rewrite (occurrences_Permutation _ _ _ (Routes_Permutation_scan app)).
  apply scan_stack_count. apply not_true_is_false. intros Ht.
  by apply is_USE_eq in Ht.
Qed.

Lemma Routes_keeps_non_USE_entries_witness :
  occurrences 1 (Routes odd_app) = 2%nat ∧ occurrences 0 (Routes odd_app) = 1%nat.
Proof.
  split.
  - etrans; [apply (Routes_keeps_non_USE_entries odd_app 1); discriminate|].
    vm_compute. reflexivity.
  - etrans; [apply (Routes_keeps_non_USE_entries odd_app 0); discriminate|].
    vm_compute. reflexivity.
Defined.

Lemma Routes_USE_names_elem_of (app : App) (name : string) :
  name ∈ USE_names (deref app) (Routes app)
  ↔ name ∈ USE_names (deref app) (mjoin (stack app)).
Proof.
  rewrite !elem_of_USE_names. split.
  - intros (p & Hp & HU & Hn). exists p. split; [|done].
    apply (scanned_from_USE (deref app) 0 (stack app) p HU).
    apply scan_stack_sound. by rewrite <- (Routes_Permutation_scan app).
  - intros (q & Hq & HU & Hn).
    apply (scanned_from_USE (deref app) 0 (stack app) q HU) in Hq.
    destruct (scan_stack_USE (deref app) (stack app)) as [_ Hcov].
    destruct (Hcov q Hq HU) as (r & Hr & HrU & Hrn).
    exists r. split; [by rewrite (Routes_Permutation_scan app)|].
    split; [done|]. apply same_Name_eq in Hrn. congruence.
Qed.

(** X9: on any table, the names of the USE routes that [Routes] returns
    are the names of the USE routes on the stacks, each once. *)
Theorem Routes_USE_names_of_stacks (app : App) :
  NoDup (USE_names (deref app) (Routes app))
  ∧ ∀ name, name ∈ USE_names (deref app) (Routes app)
            ↔ name ∈ USE_names (deref app) (mjoin (stack app)).
Proof.
  split; [apply Routes_USE_names_any_table|apply Routes_USE_names_elem_of].
Qed.

(** X10: on any table, the USE route that [Routes] returns for a name is
    the one the scan meets first: it stands, in the order of the scan,
    before every USE route of its name. *)
Theorem Routes_USE_first_scanned (app : App) (p : ptr) :
  p ∈ Routes app → Method (deref app p) = "USE" →
  first_of_name (deref app) (scanned (deref app) (stack app)) p.
Proof.
  intros Hp HU.
  destruct (scan_stack_USE (deref app) (stack app)) as [Hfirst _].
  apply Hfirst; [by rewrite <- (Routes_Permutation_scan app)|by apply is_USE_eq].
Qed.

Lemma Routes_USE_first_scanned_witness :
  first_of_name (deref odd_app) [3; 0; 2; 4; 4; 1; 1]%nat 3.
Proof.
  apply (Routes_USE_first_scanned odd_app 3); [|reflexivity].
  assert (H : Routes odd_app = [4; 4; 3; 1; 1; 0]%nat) by (vm_compute; reflexivity).
  rewrite H. right. right. left.
Defined.

(** The routes that are not USE routes are collected as scanned, in the
    order of the scan. *)
Lemma scan_stack_non_USE (h : ptr → Route) (stack : list (list ptr)) :
  filter (λ p, ¬ is_USE h p) (scan_stack h 0 [] stack)
  = filter (λ p, ¬ is_USE h p) (scanned h stack).
Proof.
  apply (scan_stack_rel h (λ routes done,
           filter (λ p, ¬ is_USE h p) routes = filter (λ p, ¬ is_USE h p) done))
    with (stack := stack) (m := 0%nat) (routes := []) (done := []); [|done].
  intros m routes done q HI.
  destruct (visit_cases h m routes q)
    as [(_ & -> & ->)|(-> & [(HqU & _ & ->)|[(_ & _ & ->)|(_ & ->)]])];
    rewrite ?app_nil_r, ?filter_app, ?HI; try done.
  rewrite filter_cons, decide_False, filter_nil, app_nil_r; [done|].
  intros Hn. apply Hn. by apply Is_true_true.
Qed.

(** X11: on any table, [Routes] returns as many routes as there are
    scanned entries that are not USE routes plus names of USE routes on
    the stacks: however many USE routes carry a name, the unnamed ones
    included, they count as one. *)
Theorem Routes_length (app : App) :
  length (Routes app)
  = (length (filter (λ p, ¬ is_USE (deref app) p)
                    (scanned (deref app) (stack app)))
     + length (remove_dups (USE_names (deref app) (mjoin (stack app)))))%nat.
Proof.
  set (h := deref app).
  assert (Hperm : Routes app ≡ₚ scan_stack h 0 [] (stack app))
    by apply Routes_Permutation_scan.
  rewrite <- (scan_stack_non_USE h (stack app)), <- Hperm.
  rewrite <- (filter_app_complement (λ p, is_USE h p) (Routes app)) at 1.
  rewrite length_app, Nat.add_comm. f_equal.
  assert (Hnames : USE_names h (Routes app)
                   ≡ₚ remove_dups (USE_names h (mjoin (stack app)))).
  { apply NoDup_Permutation;
      [apply Routes_USE_names_any_table|apply NoDup_remove_dups|].
    intros name. rewrite elem_of_remove_dups. apply Routes_USE_names_elem_of. }
  rewrite <- Hnames. unfold USE_names. by rewrite length_fmap.
Qed.

(** ** The transport error hook with the default error handler *)

(** X12: with the default error handler, a transport fault is answered
    with status 431, 408, 413 or 400, never 500, and with the message of
    the structured error as a plain-text body; the context is acquired
    before the handler runs and released after it, and nothing else
    happens. *)
Theorem transport_fault_default_response (app : App) (fctx : RequestCtx) (err : error) :
  ErrorHandler (app_Settings app) = Some defaultErrorHandler →
  let m := server_ErrorHandler app fctx err in
  resp_status (value_of m) = Code (transport_error err)
  ∧ resp_status (value_of m) ∈ [431; 408; 413; 400]%Z
  ∧ resp_body (value_of m) = Message (transport_error err)
  ∧ resp_headers (value_of m) !! "Content-Type" = Some "text/plain; charset=utf-8"
  ∧ ∃ ctx, ctx_err ctx = Some (ErrorPtr (transport_error err))
           ∧ trace_of m = [EvAcquire; EvErrorHandler ctx (ErrorPtr (transport_error err));
                           EvRelease].
Proof.
  intros Hhook m. subst m.
  unfold server_ErrorHandler, call_ErrorHandler, value_of, trace_of, AcquireCtx,
    ReleaseCtx, bind, emit, ret. rewrite Hhook. cbn.
  split; [done|]. split.
  - rewrite transport_error_cases.
    destruct err as [e|msg|[] msg|msg]; try case_decide; vm_compute;
      repeat (first [left; reflexivity | right]); by left.
  - split; [done|]. split; [by rewrite lookup_insert_eq|].
    eexists. split; [|reflexivity]. done.
Qed.

Lemma transport_fault_default_response_witness :
  let m := server_ErrorHandler (New []) (mkRequestCtx "GET" "/")
             (NetOpError true "i/o timeout") in
  resp_status (value_of m) = 408%Z ∧ resp_body (value_of m) = "Request Timeout".
Proof.
  destruct (transport_fault_default_response (New []) (mkRequestCtx "GET" "/")
              (NetOpError true "i/o timeout") eq_refl) as (Hs & _ & Hb & _).
  split; [exact Hs|exact Hb].
Defined.

(** X13: the hook uses a transport fault only to classify it: two faults
    of the same class have the same outcome, whatever error handler is
    configured, so the text of the fault never reaches the handler. *)
Theorem transport_fault_text_is_dropped
    (app : App) (fctx : RequestCtx) (err1 err2 : error) :
  transport_error err1 = transport_error err2 →
  server_ErrorHandler app fctx err1 = server_ErrorHandler app fctx err2
  ∧ ∀ ctx e, (ctx, e) ∈ hook_calls (trace_of (server_ErrorHandler app fctx err1)) →
             e = ErrorPtr (transport_error err2)
             ∧ e ∈ (ErrorPtr <$> [ErrRequestHeaderFieldsTooLarge; ErrRequestTimeout;
                                  ErrRequestEntityTooLarge; ErrBadRequest]).
Proof.
  intros Hclass.
  assert (Hsame : server_ErrorHandler app fctx err1 = server_ErrorHandler app fctx err2)
    by (unfold server_ErrorHandler; by rewrite Hclass).
  split; [exact Hsame|].
  intros ctx e. rewrite Hsame.
  unfold server_ErrorHandler, call_ErrorHandler, value_of, trace_of, AcquireCtx,
    ReleaseCtx, bind, emit, ret.
  destruct (ErrorHandler (app_Settings app)) as [hook|]; cbn; intros Hin.
  - apply list_elem_of_singleton in Hin. injection Hin as -> ->.
    split; [done|]. rewrite transport_error_cases.
    destruct err2 as [e|msg|[] msg|msg]; try case_decide;
      repeat (first [left; reflexivity | right]); by left.
  - by apply elem_of_nil in Hin.
Qed.

Lemma transport_fault_text_is_dropped_witness :
  server_ErrorHandler (New []) (mkRequestCtx "GET" "/") (OtherError "unexpected EOF")
  = server_ErrorHandler (New []) (mkRequestCtx "GET" "/")
      (NetOpError false "connection reset by peer").
Proof.
  apply (transport_fault_text_is_dropped (New []) (mkRequestCtx "GET" "/")
           (OtherError "unexpected EOF") (NetOpError false "connection reset by peer")).
  reflexivity.
Defined.

(** ** The address of [Listen] *)

Lemma Contains_colon_String (c : Ascii.ascii) (s : string) :
  Contains (String c s) ":" = if Ascii.ascii_dec ":"%char c then true else Contains s ":".
Proof.
  change (Contains (String c s) ":")
    with ((if Ascii.ascii_dec ":"%char c then String.prefix EmptyString s else false)
          || Contains s ":").
  destruct (Ascii.ascii_dec ":"%char c); [by destruct s|done].
Qed.

Lemma pretty_N_char_colon (x : N) : pretty_N_char x ≠ ":"%char.
Proof. unfold pretty_N_char. by repeat case_match. Qed.

Lemma pretty_N_go_colon (x : N) (s : string) :
  Contains s ":" = false → Contains (pretty_N_go x s) ":" = false.
Proof.
  revert s. induction (N.lt_wf_0 x) as [x _ IH]; intros s Hs.
  assert (x = 0 ∨ 0 < x)%N as [->|Hx] by lia.
  - by rewrite pretty_N_go_0.
  - rewrite pretty_N_go_step by done. apply IH; [by apply N.div_lt|].
    rewrite Contains_colon_String.
    destruct (Ascii.ascii_dec ":"%char (pretty_N_char (x `mod` 10))) as [Heq|_]; [|done].
    by destruct (pretty_N_char_colon (x `mod` 10)).
Qed.

Lemma pretty_N_colon (x : N) : Contains (pretty x) ":" = false.
Proof.
  unfold pretty, pretty_N. case_decide; [done|]. by apply pretty_N_go_colon.
Qed.

Lemma Itoa_colon (i : Z) : Contains (Itoa i) ":" = false.
Proof.
  unfold Itoa, pretty, pretty_Z. destruct i as [|x|x]; [done| |].
  - apply pretty_N_colon.
  - change ("-" +:+ pretty x) with (String "-" (pretty x)).
    rewrite Contains_colon_String. cbn. apply pretty_N_colon.
Qed.

(** X14: whatever string or port is passed, the address [Listen] opens
    the listener on contains a colon, and passing that address again
    leaves it as it is. *)
Theorem Listen_addr_has_colon (a : address) (addr : string) :
  Listen_addr a = inr addr →
  Contains addr ":" = true ∧ Listen_addr (AddrString addr) = inr addr.
Proof.
  assert (Hnorm : ∀ s, Contains (if Contains s ":" then s else (":" ++ s)%string) ":" = true).
  { intros s. destruct (Contains s ":") eqn:E; [done|]. by destruct s. }
  unfold Listen_addr. destruct a as [s|port|t]; intros [= <-] || intros [=].
  - split; [apply Hnorm|]. by rewrite Hnorm.
  - split; [apply Hnorm|]. by rewrite Hnorm.
Qed.

Lemma Listen_addr_has_colon_witness :
  Contains "localhost:3000" ":" = true
  ∧ Listen_addr (AddrString "localhost:3000") = inr "localhost:3000".
Proof.
  apply (Listen_addr_has_colon (AddrString "localhost:3000") "localhost:3000").
  reflexivity.
Defined.

(** X15: for an [int] port, negative or not, [Listen] opens the listener
    on a colon followed by the decimal digits of the port; only an address
    that is neither a string nor an [int] is refused. *)
Theorem Listen_addr_of_port (port : Z) (a : address) :
  Listen_addr (AddrInt port) = inr (":" ++ Itoa port)%string
  ∧ ((∃ err, Listen_addr a = inl err) ↔ ∃ t, a = AddrOther t).
Proof.
  split.
  - unfold Listen_addr. by rewrite Itoa_colon.
  - unfold Listen_addr. split.
    + intros [err Herr]. destruct a as [s|p|t]; [discriminate Herr..|by exists t].
    + intros [t ->]. by eexists.
Qed.

(** ** Serving *)

Lemma New_limits_positive (settings : list Settings) :
  let s := app_Settings (New settings) in
  (0 < BodyLimit s)%Z ∧ (0 < Concurrency s)%Z
  ∧ (0 < ReadBufferSize s)%Z ∧ (0 < WriteBufferSize s)%Z.
Proof.
  cbn zeta. unfold New.
  cbn [app_Settings BodyLimit Concurrency ReadBufferSize WriteBufferSize].
  repeat split; by apply limit_default.
Qed.

Lemma configure_idempotent app s srv :
  configure app s (configure app s srv) = configure app s srv.
Proof. unfold configure. cbn. f_equal. by destruct (fasthttp.Handler srv). Qed.

Section ServingFacts.
Variable tls_Config : Type.
Variable net_Listen : string → string → option error.
Variable prefork : string → list tls_Config → option error.
Variable server_Serve : option error.
Variable server_Shutdown : option error.

(** The process that [Listen] leaves: the one [init] leaves when the
    address is accepted, the one given when it is refused. *)
Lemma Listen_process (st : Process) (a : address) (tlsconfig : list tls_Config) :
  snd (fst (Listen net_Listen prefork server_Serve st a tlsconfig))
  = if Listen_addr a is inr _ then fst (init st) else st.
Proof.
  unfold Listen. destruct (Listen_addr a) as [err|addr]; [done|].
  destruct (init st) as [st1 tr]. cbn [fst].
  destruct (Prefork _); [done|]. by destruct (net_Listen _ _).
Qed.

(** X16: [init] may be called any number of times ([Listen], [Serve] and
    [Test] each call it): a second call leaves the process as the first
    left it, the server created by the first included, and does again what
    the first did to its surroundings. *)
Theorem init_idempotent (st : Process) :
  init (fst (init st)) = init st.
Proof.
  destruct st as [app s srv]. unfold init. cbn.
  by rewrite configure_idempotent.
Qed.

(** X17: on an application made by [New] and filled by registration
    calls, [init] hands the server the limits that [New] left: the body
    limit, the concurrency and the two buffer sizes of the server are
    positive, whatever settings were passed to [New]. *)
Theorem init_applies_limits_of_New
    (settings : list Settings) (calls : list call) (app : App)
    (s : ServeSettings) (srv0 : option fasthttp.Server) :
  run (New settings) calls = Ok app →
  ∃ srv, server (fst (init (mkProcess app s srv0))) = Some srv
    ∧ fasthttp.MaxRequestBodySize srv = BodyLimit (app_Settings (New settings))
    ∧ fasthttp.Concurrency srv = Concurrency (app_Settings (New settings))
    ∧ fasthttp.ReadBufferSize srv = ReadBufferSize (app_Settings (New settings))
    ∧ fasthttp.WriteBufferSize srv = WriteBufferSize (app_Settings (New settings))
    ∧ (0 < fasthttp.MaxRequestBodySize srv)%Z ∧ (0 < fasthttp.Concurrency srv)%Z
    ∧ (0 < fasthttp.ReadBufferSize srv)%Z ∧ (0 < fasthttp.WriteBufferSize srv)%Z.
Proof.
  intros Hrun. apply run_Settings in Hrun.
  destruct (New_limits_positive settings) as (H1 & H2 & H3 & H4).
  eexists. split; [reflexivity|]. cbn. rewrite Hrun. by repeat split.
Qed.

(** X18: on a process that was never initialised, [Shutdown] after
    [Listen] reports that the server is not running exactly when [Listen]
    refused the address, which it does before anything is done. When the
    address was accepted the server exists, also when the listener could
    not be opened, and [Shutdown] passes the request on to the server and
    returns its answer. *)
Theorem Shutdown_after_Listen
    (st : Process) (a : address) (tlsconfig : list tls_Config) :
  server st = None →
  let r := Listen net_Listen prefork server_Serve st a tlsconfig in
  let st' := snd (fst r) in
  match Listen_addr a with
  | inl err =>
      r = (Some err, st, [])
      ∧ Shutdown server_Shutdown st'
        = (Some (OtherError "shutdown: server is not running"), st',
           [MutexLock; MutexUnlock])
  | inr _ =>
      st' = fst (init st)
      ∧ Shutdown server_Shutdown st'
        = (server_Shutdown, st', [MutexLock; ServerShutdown; MutexUnlock])
  end.
Proof.
  intros Hsrv. cbn zeta. rewrite Listen_process.
  destruct (Listen_addr a) as [err|addr] eqn:Haddr.
  - split; [unfold Listen; by rewrite Haddr|].
    unfold Shutdown. by rewrite Hsrv.
  - split; [done|]. reflexivity.
Qed.

(** X19: an error of the view engine does not stop [init]: it is
    printed, the mutex is released, and the process and its server are
    left exactly as without a view engine. *)
Theorem init_survives_Views_error
    (st : Process) (templates : bool) (views : option (option error)) :
  fst (init (with_Views templates views st)) = with_Views templates views (fst (init st))
  ∧ server (fst (init (with_Views templates views st))) = server (fst (init st))
  ∧ last (snd (init (with_Views templates views st))) = Some MutexUnlock
  ∧ ∀ err, views = Some (Some err) →
           Stdout ("views: " ++ error_string err)%string
             ∈ snd (init (with_Views templates views st)).
Proof.
  destruct st as [app s srv]. unfold init, with_Views. cbn.
  split; [done|]. split; [done|]. split.
  - destruct templates, views as [[err|]|]; reflexivity.
  - intros err ->. destruct templates; cbn.
    + do 3 right. left.
    + do 2 right. left.
Qed.

(** X20: the mutex of the application is held inside [init] and inside
    [Shutdown] only. [Listen] and [Serve] have released it when they open
    the listener and while the server serves, so that [Shutdown] can take
    it. *)
Theorem serving_releases_mutex
    (st : Process) (a : address) (ln : string) (tlsconfig : list tls_Config) :
  mutex_events (snd (init st)) = [MutexLock; MutexUnlock]
  ∧ head (snd (init st)) = Some MutexLock
  ∧ last (snd (init st)) = Some MutexUnlock
  ∧ (∃ rest,
       snd (Listen net_Listen prefork server_Serve st a tlsconfig)
       = (if Listen_addr a is inr _ then snd (init st) else []) ++ rest
       ∧ mutex_events rest = [])
  ∧ (∃ rest,
       snd (Serve server_Serve st ln tlsconfig) = snd (init st) ++ rest
       ∧ mutex_events rest = [])
  ∧ mutex_events (snd (Shutdown server_Shutdown st)) = [MutexLock; MutexUnlock].
Proof.
  split_and!.
  - unfold init. cbn. destruct (Templates _), (Views _) as [[err|]|]; reflexivity.
  - reflexivity.
  - unfold init. cbn. destruct (Templates _), (Views _) as [[err|]|]; reflexivity.
  - unfold Listen. destruct (Listen_addr a) as [err|addr]; [by exists []|].
    destruct (init st) as [st1 tr]. cbn [snd].
    destruct (Prefork _).
    + eexists. cbn [snd]. rewrite <- app_assoc. split; [reflexivity|].
      by destruct (DisableStartupMessage _).
    + destruct (net_Listen _ _).
      * eexists. cbn [snd]. rewrite <- app_assoc. split; [reflexivity|].
        by destruct (DisableStartupMessage _).
      * eexists. cbn [snd]. rewrite <- !app_assoc. split; [reflexivity|].
        by destruct (DisableStartupMessage _), tlsconfig.
  - unfold Serve. destruct (init st) as [st1 tr]. cbn [snd].
    eexists. rewrite <- !app_assoc. split; [reflexivity|].
    by destruct (DisableStartupMessage _), tlsconfig.
  - unfold Shutdown. by destruct (server st).
Qed.

(** What [init] does to its surroundings: it takes and releases the
    mutex, loads the views and prints. *)
Lemma init_effects (st : Process) (e : effect) :
  e ∈ snd (init st) →
  e = MutexLock ∨ e = MutexUnlock ∨ e = ViewsLoad ∨ ∃ line, e = Stdout line.
Proof.
  unfold init. cbn [snd].
  rewrite !elem_of_app, !list_elem_of_singleton.
  intros [->|[He|[He| ->]]]; [by left| | |by right; left].
  - destruct (Templates _); [|by apply elem_of_nil in He].
    apply list_elem_of_singleton in He as ->. do 3 right. by eexists.
  - destruct (Views _) as [[err|]|]; [| |by apply elem_of_nil in He].
    + apply elem_of_cons in He as [->|He]; [by right; right; left|].
      apply list_elem_of_singleton in He as ->. do 3 right. by eexists.
    + apply list_elem_of_singleton in He as ->. by right; right; left.
Qed.

(** X21: when the listener cannot be opened, [Listen] returns the error
    of [net.Listen] as it is and the server never serves; by then the
    server has been initialised and [startupMessage], unless disabled, has
    been called, since both come before the listener is opened. *)
Theorem Listen_bind_failure
    (st : Process) (a : address) (addr : string) (err : error)
    (tlsconfig : list tls_Config) :
  Listen_addr a = inr addr →
  Prefork (proc_Settings st) = false →
  net_Listen "tcp4" addr = Some err →
  let r := Listen net_Listen prefork server_Serve st a tlsconfig in
  fst (fst r) = Some err
  ∧ snd (fst r) = fst (init st)
  ∧ (∀ ln, ServerServe ln ∉ snd r)
  ∧ last (snd r) = Some (NetListen "tcp4" addr)
  ∧ (StartupMessage addr ∈ snd r
     ↔ DisableStartupMessage (proc_Settings st) = false).
Proof.
  intros Haddr HP HL. cbn zeta.
  pose proof (init_effects st) as Hinit.
  assert (Hs : proc_Settings (fst (init st)) = proc_Settings st) by reflexivity.
  unfold Listen. rewrite Haddr.
  destruct (init st) as [st1 tr]. cbn [fst snd] in Hinit, Hs.
  rewrite Hs, HP, HL. cbn [fst snd].
  split; [done|]. split; [done|]. split_and!.
  - intros ln Hin. apply elem_of_app in Hin as [Hin|Hin].
    + apply elem_of_app in Hin as [Hin|Hin].
      * destruct (Hinit _ Hin) as [?|[?|[?|[line ?]]]]; discriminate.
      * destruct (DisableStartupMessage _); [by apply elem_of_nil in Hin|].
        apply list_elem_of_singleton in Hin. discriminate Hin.
    + apply list_elem_of_singleton in Hin. discriminate Hin.
  - by rewrite last_snoc.
  - rewrite !elem_of_app, list_elem_of_singleton. split.
    + intros [[Hin|Hin]|Hin].
      * destruct (Hinit _ Hin) as [?|[?|[?|[line ?]]]]; discriminate.
      * destruct (DisableStartupMessage _); [by apply elem_of_nil in Hin|done].
      * discriminate Hin.
    + intros ->. left. right. left.
Qed.
End ServingFacts.

Lemma init_applies_limits_of_New_witness :
  ∃ srv, server (fst (init (mkProcess (app_of (run (New [low_Settings]) sample_calls))
                              zero_ServeSettings None))) = Some srv
    ∧ fasthttp.MaxRequestBodySize srv = 4194304%Z
    ∧ fasthttp.ReadBufferSize srv = 100%Z.
Proof.
  destruct (init_applies_limits_of_New [low_Settings] sample_calls
              (app_of (run (New [low_Settings]) sample_calls))
              zero_ServeSettings None eq_refl)
    as (srv & Hsrv & Hbody & _ & Hread & _).
  exists srv. split; [exact Hsrv|]. split; [exact Hbody|exact Hread].
Defined.

Lemma Shutdown_after_Listen_witness :
  fst (fst (Shutdown None
     (snd (fst (Listen port_in_use no_prefork None sample_process
                       (AddrOther "float64") [])))))
  = Some (OtherError "shutdown: server is not running")
  ∧ snd (Shutdown None
      (snd (fst (Listen port_in_use no_prefork None sample_process (AddrInt 80) []))))
    = [MutexLock; ServerShutdown; MutexUnlock].
Proof.
  split.
  - destruct (Shutdown_after_Listen unit port_in_use no_prefork None None
                sample_process (AddrOther "float64") [] eq_refl) as [_ H].
    exact (f_equal (λ r, fst (fst r)) H).
  - destruct (Shutdown_after_Listen unit port_in_use no_prefork None None
                sample_process (AddrInt 80) [] eq_refl) as [_ H].
    exact (f_equal snd H).
Defined.

Lemma Listen_bind_failure_witness :
  fst (fst (Listen port_in_use no_prefork None sample_process (AddrInt 80) []))
  = Some (OtherError "listen tcp4 :80: bind: address already in use")
  ∧ StartupMessage ":80"
      ∈ snd (Listen port_in_use no_prefork None sample_process (AddrInt 80) []).
Proof.
  destruct (Listen_bind_failure unit port_in_use no_prefork None
              sample_process (AddrInt 80) ":80"
              (OtherError "listen tcp4 :80: bind: address already in use") []
              eq_refl eq_refl eq_refl) as (Herr & _ & _ & _ & Hmsg).
  split; [exact Herr|]. apply Hmsg. reflexivity.
Defined.

(** ** [All] *)

Lemma All_step_registers path handlers app slice i method :
  methodINT !! i = Some method →
  All_step path handlers (app, slice) i =
    (fst (register app method path handlers), <[i := Some (length (heap app))]> slice).
Proof. intros Hm. unfold All_step, Add. rewrite Hm. reflexivity. Qed.

(** The loop of [All] from any state, over method numbers visited at most
    once. *)
Lemma All_from path handlers order : ∀ app slice,
  NoDup order →
  (∀ i, i ∈ order → (i < length methodINT)%nat) →
  let r := foldl (All_step path handlers) (app, slice) order in
  heap (fst r) =
    heap app ++ imap (λ k i, mkRoute (routes app + Z.of_nat k + 1)
                               (if String.eqb path EmptyString then "/" else path)
                               (default EmptyString (methodINT !! i))
                               EmptyString handlers) order
  ∧ routes (fst r) = (routes app + Z.of_nat (length order))%Z
  ∧ length (snd r) = length slice
  ∧ (∀ k i, order !! k = Some i → (i < length slice)%nat →
            snd r !! i = Some (Some (length (heap app) + k)%nat))
  ∧ (∀ i, i ∉ order → snd r !! i = slice !! i)
  ∧ (table_ok app → table_ok (fst r)).
Proof.
  induction order as [|i order IH]; intros app slice Hnd Hlt; cbn zeta.
  - cbn. rewrite app_nil_r. split_and!; try done. lia.
  - apply NoDup_cons in Hnd as [Hi Hnd].
    destruct (lookup_lt_is_Some_2 methodINT i) as [method Hm].
    { apply Hlt. left. }
    cbn [foldl]. rewrite (All_step_registers _ _ _ _ _ _ Hm).
    specialize (IH (fst (register app method path handlers))
                   (<[i := Some (length (heap app))]> slice) Hnd).
    cbn zeta in IH.
    destruct IH as (Hheap & Hroutes & Hlen & Hslot & Hother & Hok).
    { intros j Hj. apply Hlt. by right. }
    rewrite register_heap in Hheap, Hslot. rewrite length_app in Hslot.
    cbn [length] in Hslot.
    assert (Hr1 : routes (fst (register app method path handlers)) = (routes app + 1)%Z)
      by reflexivity.
    rewrite Hr1 in *.
    split_and!.
    + rewrite Hheap, <- app_assoc. f_equal. rewrite imap_cons, Hm.
      change ([?x] ++ ?l) with (x :: l). cbn [default from_option id].
      f_equal; [f_equal; lia|].
      apply imap_ext. intros k j _. cbn. f_equal. lia.
    + rewrite Hroutes. cbn [length]. lia.
    + by rewrite Hlen, length_insert.
    + intros [|k] j Hk Hj.
      * injection Hk as <-. rewrite Hother by done.
        rewrite list_lookup_insert_eq by done. by rewrite Nat.add_0_r.
      * cbn in Hk. rewrite (Hslot k j Hk) by (by rewrite length_insert).
        do 2 f_equal. lia.
    + intros j Hj. apply not_elem_of_cons in Hj as [Hne Hj].
      rewrite (Hother j Hj). by rewrite list_lookup_insert_ne.
    + intros Htab. by apply Hok, table_ok_register.
Qed.

Lemma All_order_facts order :
  order ≡ₚ seq 0 (length methodINT) →
  NoDup order ∧ (∀ i, i ∈ order → (i < length methodINT)%nat)
  ∧ length order = length methodINT.
Proof.
  intros Hp. split_and!.
  - rewrite Hp. apply NoDup_seq.
  - intros i Hi. rewrite Hp in Hi. apply elem_of_seq in Hi. lia.
  - by rewrite Hp, length_seq.
Qed.

(** X22: whatever order the loop of [All] visits the methods in, it
    registers one route for each of the nine methods, and the slot of the
    returned slice numbered like a method holds the route registered for
    that method; the order of the visit only decides the positions the
    nine routes get. *)
Theorem All_registers_each_method
    (order : list nat) (app : App) (path : string) (handlers : list Handler) :
  order ≡ₚ seq 0 (length methodINT) →
  let app' := fst (All order app path handlers) in
  let slice := snd (All order app path handlers) in
  length slice = 9%nat
  ∧ routes app' = (routes app + 9)%Z
  ∧ length (heap app') = (length (heap app) + 9)%nat
  ∧ (∀ p r, heap app !! p = Some r → heap app' !! p = Some r)
  ∧ ∀ k i method,
      order !! k = Some i → methodINT !! i = Some method →
      slice !! i = Some (Some (length (heap app) + k)%nat)
      ∧ heap app' !! (length (heap app) + k)%nat
        = Some (mkRoute (routes app + Z.of_nat k + 1)
                        (if String.eqb path EmptyString then "/" else path)
                        method EmptyString handlers).
Proof.
  intros Hp. destruct (All_order_facts order Hp) as (Hnd & Hlt & Hlen).
  pose proof (All_from path handlers order app
                (replicate (length methodINT) None) Hnd Hlt) as H.
  cbn zeta in H. destruct H as (Hheap & Hroutes & Hslen & Hslot & _ & _).
  cbn zeta. unfold All. split_and!.
  - by rewrite Hslen, length_replicate.
  - by rewrite Hroutes, Hlen.
  - by rewrite Hheap, length_app, length_imap, Hlen.
  - intros p r Hr. rewrite Hheap. by apply lookup_app_l_Some.
  - intros k i method Hk Hm. split.
    + apply Hslot; [done|]. rewrite length_replicate. apply Hlt.
      by apply list_elem_of_lookup_2 with k.
    + rewrite Hheap, lookup_app_r by lia.
      replace (length (heap app) + k - length (heap app))%nat with k by lia.
      rewrite list_lookup_imap, Hk. cbn [fmap option_fmap option_map].
      by rewrite Hm.
Qed.

Lemma All_registers_each_method_witness :
  snd (All (reverse (seq 0 9)) sample_app "/any" [pong]) !! 0%nat = Some (Some 16%nat)
  ∧ Method (deref (fst (All (reverse (seq 0 9)) sample_app "/any" [pong])) 16) = "GET".
Proof.
  destruct (All_registers_each_method (reverse (seq 0 9)) sample_app "/any" [pong]
              (reverse_Permutation _)) as (_ & _ & _ & _ & Hslot).
  destruct (Hslot 8%nat 0%nat "GET" eq_refl eq_refl) as [Hs Hr].
  split; [exact Hs|].
  unfold deref. etrans; [exact (f_equal (λ r, Method (default zero_Route r)) Hr)|].
  reflexivity.
Defined.

Lemma filter_all {A} (P : A → Prop) `{!∀ x, Decision (P x)} (l : list A) :
  (∀ x, x ∈ l → P x) → filter P l = l.
Proof.
  induction l as [|x l IH]; intros Hall; [done|].
  rewrite filter_cons, decide_True by (apply Hall; left).
  f_equal. apply IH. intros y Hy. apply Hall. by right.
Qed.

(** Whether a route is enumerated depends on the routes up to it only. *)
Lemma enumerated_ext (h1 h2 : ptr → Route) (p : ptr) :
  (∀ q, (q ≤ p)%nat → h1 q = h2 q) → enumerated h1 p = enumerated h2 p.
Proof.
  intros Hext. unfold enumerated.
  assert (HU : ∀ q, (q ≤ p)%nat → is_USE h1 q = is_USE h2 q).
  { intros q Hq. unfold is_USE. by rewrite (Hext q Hq). }
  assert (HN : ∀ q, (q ≤ p)%nat → same_Name h1 q p = same_Name h2 q p).
  { intros q Hq. unfold same_Name. by rewrite (Hext q Hq), (Hext p (le_n p)). }
  rewrite (HU p (le_n p)), (Hext p (le_n p)).
  destruct (is_USE h2 p) eqn:HUp; [|done].
  apply eq_true_iff_eq. rewrite !first_named_true, (HU p (le_n p)).
  split; intros [H1 H2]; (split; [done|]); intros q Hq HqU.
  - rewrite <- (HN q) by lia. apply H2; [done|]. by rewrite (HU q) by lia.
  - rewrite (HN q) by lia. apply H2; [done|]. by rewrite <- (HU q) by lia.
Qed.

(** X23: after any registration calls, [All] adds nine routes to what
    [Routes] returns, after the routes returned before and in the order in
    which the loop visited the methods; the GET route, which also sits on
    the stack of HEAD, is among them once. *)
Theorem Routes_after_All
    (settings : list Settings) (calls : list call) (app : App)
    (order : list nat) (path : string) (handlers : list Handler) :
  run (New settings) calls = Ok app →
  order ≡ₚ seq 0 (length methodINT) →
  let app' := fst (All order app path handlers) in
  Routes app' = Routes app ++ seq (length (heap app)) 9
  ∧ (λ p, Method (deref app' p)) <$> seq (length (heap app)) 9
    = (λ i, default EmptyString (methodINT !! i)) <$> order.
Proof.
  intros Hrun Hp. destruct (All_order_facts order Hp) as (Hnd & Hlt & Hlen).
  assert (Htab : table_ok app) by (eapply table_ok_run; [apply table_ok_New|done]).
  pose proof (All_from path handlers order app
                (replicate (length methodINT) None) Hnd Hlt) as H.
  cbn zeta in H. destruct H as (Hheap & _ & _ & _ & _ & Hok).
  specialize (Hok Htab). cbn zeta. unfold All.
  set (app' := fst (foldl (All_step path handlers)
                      (app, replicate (length methodINT) None) order)) in *.
  assert (Hold : ∀ q, (q < length (heap app))%nat → deref app' q = deref app q).
  { intros q Hq. unfold deref. by rewrite Hheap, lookup_app_l. }
  assert (Hnew : ∀ k i, order !! k = Some i →
            Method (deref app' (length (heap app) + k)%nat)
            = default EmptyString (methodINT !! i)).
  { intros k i Hk. unfold deref. rewrite Hheap, lookup_app_r by lia.
    replace (length (heap app) + k - length (heap app))%nat with k by lia.
    by rewrite list_lookup_imap, Hk. }
  assert (Hlen' : length (heap app') = (length (heap app) + 9)%nat).
  { by rewrite Hheap, length_app, length_imap, Hlen. }
  split.
  - rewrite (Routes_registered app' Hok), (Routes_registered app Htab), Hlen'.
    rewrite seq_app, filter_app, Nat.add_0_l. f_equal.
    + apply filter_ext_elem_of. intros p Hin. apply elem_of_seq in Hin.
      rewrite (enumerated_ext (deref app') (deref app) p); [done|].
      intros q Hq. apply Hold. lia.
    + apply filter_all. intros p Hin. apply elem_of_seq in Hin.
      destruct (lookup_lt_is_Some_2 order (p - length (heap app))) as [i Hi];
        [rewrite Hlen; cbn; lia|].
      destruct (lookup_lt_is_Some_2 methodINT i) as [method Hm].
      { apply Hlt. by apply list_elem_of_lookup_2 with (p - length (heap app))%nat. }
      pose proof (Hnew _ _ Hi) as HM.
      replace (length (heap app) + (p - length (heap app)))%nat with p in HM by lia.
      rewrite Hm in HM. cbn in HM.
      apply Is_true_true. unfold enumerated, is_USE. rewrite HM.
      destruct (String.eqb_spec method "USE") as [->|_].
      * by destruct (methodINT_lookup_USE i).
      * apply bool_decide_eq_true. by apply list_elem_of_lookup_2 with i.
  - apply list_eq. intros k. rewrite !list_lookup_fmap.
    destruct (decide (k < 9)%nat) as [Hk|Hk].
    + rewrite lookup_seq_lt by done.
      destruct (lookup_lt_is_Some_2 order k) as [i Hi]; [rewrite Hlen; cbn; lia|].
      rewrite Hi. cbn. f_equal. by apply Hnew.
    + rewrite lookup_seq_ge by lia.
      rewrite (lookup_ge_None_2 order k); [done|]. rewrite Hlen. cbn. lia.
Qed.

Lemma Routes_after_All_witness :
  Routes (fst (All (reverse (seq 0 9)) sample_app "/any" [pong]))
  = [0; 1; 2; 3; 4; 7; 8; 9; 10; 11; 12; 13; 14; 15; 16]%nat.
Proof.
  destruct (Routes_after_All [] sample_calls sample_app (reverse (seq 0 9)) "/any"
              [pong] eq_refl (reverse_Permutation _)) as [H _].
  etrans; [exact H|]. vm_compute. reflexivity.
Defined.
